(** * Voice bot: billing ledger, vocabulary extraction and the voice pipeline

    A shallow embedding of [src/main.py]: the process-wide [billing]
    ledger and [add_billing_entry], the word extraction of [handle_voice]
    (a regular-expression scan followed by a de-duplicating loop), the
    per-word enrichment loop, and the handler itself with its
    [try]/[except]/[finally] structure.

    Python values are modelled as follows.
    - [float] is the kernel's binary64 ([PrimFloat]); arithmetic is IEEE 754
      round-to-nearest-even, as CPython's.
    - [int] is [Z]; an [int] meeting a [float] in [/] or [*] is converted
      first, correctly rounded, and the conversion raises [OverflowError]
      when the result does not fit a double.
    - the text the extractor scans is a list of characters over an arbitrary
      alphabet, the class [\w] and [str.lower] being parameters (they are
      given by the Unicode database of the interpreter, the class [unicode]
      here); the handler is stated for every such database, and the example
      updates, whose transcripts are 7-bit text, run with the 7-bit one.
    - exceptions are values of [exn], every one of them a subclass of
      [Exception]; a computation that may raise returns a [result]. *)

From Stdlib Require Import ZArith Floats Lia Ascii.
From stdpp Require Import base option list gmap strings pretty.

Set Warnings "-inexact-float,-register-all".
Local Open Scope Z_scope.

(* ===================================================================== *)
(** * Part I: definitions                                                 *)
(* ===================================================================== *)

(** ** Numbers *)

(** The double nearest to an integer (ties to even); an integer beyond the
    range rounds to an infinity. *)
Definition Z_to_double (z : Z) : float :=
  SF2Prim (binary_normalize prec emax z 0 false).

(** ** Exceptions *)

Inductive exn : Type :=
| OverflowError
    (* int too large to convert to float *)
| AttributeError (ty : string)
    (* '<ty>' object has no attribute 'get' *)
| ExternalError (msg : string).
    (* raised by the messaging platform, an API client or the OS *)

Inductive result (A : Type) : Type :=
| Ok (a : A)
| Raise (e : exn).
Arguments Ok {A} a.
Arguments Raise {A} e.

(** [str(e)] *)
Definition exn_str (e : exn) : string :=
  match e with
  | OverflowError => "int too large to convert to float"
  | AttributeError ty => "'" +:+ ty +:+ "' object has no attribute 'get'"
  | ExternalError msg => msg
  end.

(** [float(n)] as the arithmetic operators apply it to an [int] operand. *)
Definition int_to_float (n : Z) : result float :=
  let f := Z_to_double n in
  if PrimFloat.is_infinity f then Raise OverflowError else Ok f.

(** ** The ledger (main.py, lines 17-44) *)

Definition USD_TO_UZS : float := 20000.2%float.

Record entry : Type := mk_entry {
  model : string;
  raw_sum : float;
  sum_uzs : float;
  tokens : Z;
  note : string
}.

Record billing_t : Type := mk_billing {
  entries : list entry;
  total_raw : float;
  total_uzs : float;
  total_tokens : Z
}.

(** The module-level [billing] dictionary as the process starts. *)
Definition billing : billing_t :=
  {| entries := []; total_raw := 0.0%float; total_uzs := 0.0%float;
     total_tokens := 0 |}.

(** [add_billing_entry]: the created entry and the ledger after the call.
    The dictionary returned is the one appended; its callers read two of its
    fields and keep no reference to it. *)
Definition add_billing_entry (model_name : string) (cost_usd : float)
    (tokens : Z) (note : string) (b : billing_t) : entry * billing_t :=
  let uzs := (cost_usd * USD_TO_UZS)%float in
  let e := {| model := model_name; raw_sum := cost_usd; sum_uzs := uzs;
              tokens := tokens; note := note |} in
  (e, {| entries := entries b ++ [e];
         total_raw := (total_raw b + cost_usd)%float;
         total_uzs := (total_uzs b + uzs)%float;
         total_tokens := total_tokens b + tokens |}).

(** The arguments of one call. *)
Record record_call : Type := mk_call {
  call_model : string;
  call_cost : float;
  call_tokens : Z;
  call_note : string
}.

Definition record (b : billing_t) (c : record_call) : billing_t :=
  snd (add_billing_entry (call_model c) (call_cost c) (call_tokens c)
         (call_note c) b).

Definition entry_of_call (c : record_call) : entry :=
  fst (add_billing_entry (call_model c) (call_cost c) (call_tokens c)
         (call_note c) billing).

(** A finite sequence of calls, in program order. *)
Definition record_all (b : billing_t) (calls : list record_call) : billing_t :=
  foldl record b calls.

(** Sums over the entry list, accumulated in insertion order from the same
    zero the totals start from (float addition is not associative, so the
    order is part of the definition). *)
Definition float_sum (xs : list float) : float :=
  foldl PrimFloat.add 0.0%float xs.

Definition int_sum (xs : list Z) : Z := foldl Z.add 0 xs.

Definition totals_match (b : billing_t) : Prop :=
  total_raw b = float_sum (raw_sum <$> entries b) ∧
  total_uzs b = float_sum (sum_uzs <$> entries b) ∧
  total_tokens b = int_sum (tokens <$> entries b).

(** ** The vocabulary extractor (main.py, lines 108-114) *)

Section extractor.
Context {char : Type} `{Countable char}.
Variable is_word : char → bool.          (* the class [\w] *)
Variable lower : list char → list char.  (* [str.lower] *)

(** Whether the character on one side of a position is a word character;
    there is none before the first and after the last position. *)
Definition word_at (c : option char) : bool := from_option is_word false c.

(** [\b]: exactly one of the two neighbours is a word character. *)
Definition boundary (prev next : option char) : bool :=
  xorb (word_at prev) (word_at next).

(** The rest of [\w+\b] once a word character [last] is consumed. The
    quantifier is greedy: one more character is taken when there is one, and
    only when the remainder fails from there is [\b] tried at this position.
    The result is what was consumed further and the text left. *)
Fixpoint more_word (last : char) (s : list char)
    : option (list char * list char) :=
  match s with
  | c :: s' =>
      if is_word c then
        match more_word c s' with
        | Some (tok, rest) => Some (c :: tok, rest)
        | None =>
            if boundary (Some last) (Some c) then Some ([], s) else None
        end
      else if boundary (Some last) (Some c) then Some ([], s) else None
  | [] => if boundary (Some last) None then Some ([], []) else None
  end.

(** [\b\w+\b] anchored at the position whose left neighbour is [prev]. *)
Definition match_at (prev : option char) (s : list char)
    : option (list char * list char) :=
  match s with
  | c :: s' =>
      if boundary prev (Some c) && is_word c then
        match more_word c s' with
        | Some (tok, rest) => Some (c :: tok, rest)
        | None => None
        end
      else None
  | [] => None
  end.

(** [re.findall]: the leftmost match from the current position, then on
    from its end; a position without a match is passed over. Every step
    consumes a character, so the length of the text is fuel enough. *)
Fixpoint findall_from (fuel : nat) (prev : option char) (s : list char)
    : list (list char) :=
  match fuel with
  | O => []
  | S fuel' =>
      match s with
      | [] => []
      | c :: s' =>
          match match_at prev s with
          | Some (tok, rest) => tok :: findall_from fuel' (last tok) rest
          | None => findall_from fuel' (Some c) s'
          end
      end
  end.

Definition findall (s : list char) : list (list char) :=
  findall_from (length s) None s.

(** The loop of lines 111-114 over the matches, with its two accumulators. *)
Fixpoint unique_long (toks words : list (list char)) (seen : gset (list char))
    : list (list char) :=
  match toks with
  | [] => words
  | word :: toks' =>
      if bool_decide (3 < length word)%nat && bool_decide (word ∉ seen)
      then unique_long toks' (words ++ [word]) ({[word]} ∪ seen)
      else unique_long toks' words seen
  end.

(** [words] as line 116 finds it, for the transcript [text]. *)
Definition extract_words (text : list char) : list (list char) :=
  unique_long (findall (lower text)) [] ∅.

(** *** The extractor as the specification words it *)

(** [word_runs s toks]: [toks] are the maximal runs of word characters of
    [s], from left to right. The text is a stretch of other characters, then
    a non-empty run that ends where the text ends or another character
    follows, then the remaining text with its runs. *)
Inductive word_runs : list char → list (list char) → Prop :=
| runs_done sep :
    Forall (λ c, is_word c = false) sep → word_runs sep []
| runs_cons sep tok rest toks :
    Forall (λ c, is_word c = false) sep →
    tok ≠ [] → Forall (λ c, is_word c = true) tok →
    word_at (head rest) = false →
    word_runs rest toks →
    word_runs (sep ++ tok ++ rest) (tok :: toks).

(** Each token at its first occurrence only, in the order of the list. *)
Fixpoint first_occurrences (l : list (list char)) : list (list char) :=
  match l with
  | [] => []
  | x :: l' => x :: filter (λ y, y ≠ x) (first_occurrences l')
  end.

(** First occurrences, of which those longer than 3 characters are kept. *)
Definition vocabulary (toks : list (list char)) : list (list char) :=
  filter (λ t, (3 < length t)%nat) (first_occurrences toks).

End extractor.

(** *** The 7-bit instance

    On ASCII text [\w] is [[a-zA-Z0-9_]] and [str.lower] maps [A-Z] to
    [a-z]; other characters are no word characters and have no lower case
    here. *)
Definition is_word_ascii (c : ascii) : bool :=
  let n := N_of_ascii c in
  ((48 <=? n) && (n <=? 57) || (65 <=? n) && (n <=? 90) ||
   (97 <=? n) && (n <=? 122) || (n =? 95))%N.

Definition lower_ascii (c : ascii) : ascii :=
  let n := N_of_ascii c in
  if ((65 <=? n) && (n <=? 90))%N then ascii_of_N (n + 32) else c.

(** The extractor on Python strings of 7-bit characters. *)
Definition extract_text (text : string) : list string :=
  String.string_of_list_ascii <$>
    extract_words is_word_ascii (fmap lower_ascii)
      (String.list_ascii_of_string text).

(** *** The extractor in the handler

    A transcript is a [str], a sequence of code points; which of them [\w]
    matches and what [str.lower] returns is fixed by the Unicode database the
    interpreter was built with. The handler is read against any such
    database: the code points, the two tables of lines 109 and 110, and how
    a [str] of the handler is made of code points. *)
Class unicode : Type := {
  char : Type;
  char_eq_dec :: EqDecision char;
  char_countable :: Countable char;
  word_char : char → bool;                    (* [\w] *)
  lower_case : list char → list char;         (* [str.lower] *)
  characters : string → list char;
  of_characters : list char → string
}.

(** Lines 108-114 on a transcript: the list [words] of line 116. *)
Definition words_of `{U : unicode} (text : string) : list string :=
  of_characters <$> extract_words word_char lower_case (characters text).

(** The database restricted to 7-bit text, with which [words_of] is
    [extract_text]. *)
#[export] Instance seven_bit : unicode :=
  {| char := ascii;
     word_char := is_word_ascii;
     lower_case := fmap lower_ascii;
     characters := String.list_ascii_of_string;
     of_characters := String.string_of_list_ascii |}.

(** *** The Latin-1 range

    The database on the code points U+0000 to U+00FF, for transcripts
    written in UTF-8 that stay within them: [\w] matches the letters and
    digits of the range and the underscore, among them the accented letters,
    and [str.lower] maps the capital letters U+00C0 to U+00DE (the
    multiplication sign U+00D7 apart) as it maps [A-Z]. *)
Definition is_word_latin_1 (n : N) : bool :=
  ((48 <=? n) && (n <=? 57) || (65 <=? n) && (n <=? 90) || (n =? 95) ||
   (97 <=? n) && (n <=? 122) || (n =? 170) || (178 <=? n) && (n <=? 179) ||
   (n =? 181) || (185 <=? n) && (n <=? 186) || (188 <=? n) && (n <=? 190) ||
   (192 <=? n) && (n <=? 214) || (216 <=? n) && (n <=? 246) ||
   (248 <=? n) && (n <=? 255))%N.

Definition lower_latin_1 (n : N) : N :=
  if ((65 <=? n) && (n <=? 90) || (192 <=? n) && (n <=? 214) ||
      (216 <=? n) && (n <=? 222))%N
  then (n + 32)%N else n.

(** The code points of a text in UTF-8: a byte below 128 is its code point,
    and the lead bytes 194 and 195 with the byte that continues them give
    U+0080 to U+00FF. Other bytes, which text of the range does not have,
    are kept as they are. *)
Fixpoint utf8_decode (s : list ascii) : list N :=
  match s with
  | [] => []
  | b :: s' =>
      let n := N_of_ascii b in
      match s' with
      | b' :: s'' =>
          let n' := N_of_ascii b' in
          if ((194 <=? n) && (n <=? 195) && (128 <=? n') && (n' <=? 191))%N
          then ((n - 192) * 64 + (n' - 128))%N :: utf8_decode s''
          else n :: utf8_decode s'
      | [] => [n]
      end
  end.

Definition utf8_encode (l : list N) : list ascii :=
  n ← l;
  if (n <? 128)%N then [ascii_of_N n]
  else [ascii_of_N (192 + n / 64); ascii_of_N (128 + n mod 64)].

Definition latin_1 : unicode :=
  {| char := N;
     word_char := is_word_latin_1;
     lower_case := fmap lower_latin_1;
     characters := λ text, utf8_decode (String.list_ascii_of_string text);
     of_characters := λ l, String.string_of_list_ascii (utf8_encode l) |}.

(** ** Values of the enrichment response *)

(** What [json.loads] returns. *)
Inductive pyval : Type :=
| PNone
| PBool (b : bool)
| PInt (n : Z)
| PFloat (f : float)
| PStr (s : string)
| PList (l : list pyval)
| PDict (d : gmap string pyval).

Definition type_name (v : pyval) : string :=
  match v with
  | PNone => "NoneType"
  | PBool _ => "bool"
  | PInt _ => "int"
  | PFloat _ => "float"
  | PStr _ => "str"
  | PList _ => "list"
  | PDict _ => "dict"
  end.

(** [data.get(key, fallback)]: only a [dict] has the method. *)
Definition py_get (data : pyval) (key : string) (fallback : pyval)
    : result pyval :=
  match data with
  | PDict d => Ok (default fallback (d !! key))
  | _ => Raise (AttributeError (type_name data))
  end.

(** [response.usage]'s counters, for the values the statements below are
    about: [Some n] is a counter that is the [int] [n] (a [bool] being the
    [int] it counts as); [None] is a counter that [+=] on an [int] rejects
    with an exception, such as an attribute that is missing, [None] or a
    [str]. A counter that is a [float], which [+=] would accept and which
    would turn the total into a [float], is outside this type: the client
    declares the three counters as [int]. *)
Record usage_t : Type := mk_usage {
  prompt_tokens : option Z;
  completion_tokens : option Z;
  usage_total_tokens : option Z
}.

(** A chat completion as the handler reads it: [content] is what
    [json.loads(response.choices[0].message.content)] evaluates to, a value or
    the exception the expression raises; [usage] is [None] when the response
    carries no usage object. *)
Record response : Type := mk_response {
  content : result pyval;
  usage : option usage_t
}.

Record word_dict : Type := mk_word {
  word : string;
  translate : pyval;
  definition : pyval
}.

Definition not_found : pyval := PStr "Not found".

(** ** The world of a handler *)

(** What [reply_text] sends, by the line that formats it. *)
Inductive message : Type :=
| RecognizedText (text : string)                      (* line 100 *)
| WhisperBilled (raw uzs : float)                     (* line 106 *)
| WordCard (w : word_dict)                            (* lines 156-161 *)
| GptBilled (total : Z) (raw uzs : float)             (* line 168 *)
| RecognitionError (detail : string)                  (* line 171 *)
| GenericError                                        (* lines 75-79 *)
| BalanceEmpty                                        (* line 49 *)
| BalanceSummary (lines : list entry) (raw uzs : float) (toks : Z)
                                                      (* lines 52-61 *)
| Greeting.                                           (* line 182 *)

(** The ledger, the files in the temporary directory and the messages the
    user has received. *)
Record world : Type := mk_world {
  ledger : billing_t;
  files : gset string;
  outbox : list message
}.

(** One voice update and what the services outside the process answer while
    it is handled. [None] in an [option exn] is a call that returns. With the
    builder's defaults updates are handled one after the other, so one
    handler runs from its first to its last step on the same [world]. *)
Record update_env : Type := mk_env {
  voice : option Z;
      (* [update.message.voice], given by its [duration] in seconds *)
  get_file : option exn;
  named_temporary_file : result string;
      (* the name of the file [NamedTemporaryFile(delete=False)] creates *)
  download_to_drive : option exn;
  transcription : result string;
      (* lines 93-99: opening the file, the Whisper call, [.text] *)
  chat_completion : string → result response;
      (* the call of lines 125-131 for a word *)
  reply_text : message → option exn;
  os_remove : option exn
}.

(** ** Handlers: state and exceptions *)

(** A coroutine of the bot: run in a world, it returns or raises, and
    leaves a world. *)
Definition handler (A : Type) : Type := world → result A * world.

#[export] Instance handler_ret : MRet handler := λ A a w, (Ok a, w).

#[export] Instance handler_bind : MBind handler := λ A B f m w,
  match m w with
  | (Ok a, w') => f a w'
  | (Raise e, w') => (Raise e, w')
  end.

(** An expression that touches nothing in the world. *)
Definition lift {A} (r : result A) : handler A := λ w, (r, w).

(** A call to a service made for its effect there: it returns or raises. *)
Definition check (r : option exn) : handler unit :=
  λ w, (from_option Raise (Ok ()) r, w).

(** [try: body except Exception as e: on_error(e)] *)
Definition try_except {A} (body : handler A) (on_error : exn → handler A)
    : handler A := λ w,
  match body w with
  | (Ok a, w') => (Ok a, w')
  | (Raise e, w') => on_error e w'
  end.

(** [try: body finally: cleanup]: the cleanup runs on both exits; the
    outcome is the body's unless the cleanup raises itself. *)
Definition try_finally {A} (body : handler A) (cleanup : handler unit)
    : handler A := λ w,
  match body w with
  | (r, w') =>
      match cleanup w' with
      | (Ok _, w'') => (r, w'')
      | (Raise e, w'') => (Raise e, w'')
      end
  end.

(** *** Effects *)

Definition reply (env : update_env) (m : message) : handler unit := λ w,
  match reply_text env m with
  | None => (Ok (), {| ledger := ledger w; files := files w;
                       outbox := outbox w ++ [m] |})
  | Some e => (Raise e, w)
  end.

Definition bill (model_name : string) (cost_usd : float) (tokens : Z)
    (note : string) : handler entry := λ w,
  let '(e, b) := add_billing_entry model_name cost_usd tokens note (ledger w) in
  (Ok e, {| ledger := b; files := files w; outbox := outbox w |}).

(** [NamedTemporaryFile(delete=False, suffix='.ogg')]: the file exists from
    here on, also after the [with] block is left. *)
Definition create_temp (env : update_env) : handler string := λ w,
  match named_temporary_file env with
  | Ok path => (Ok path, {| ledger := ledger w; files := {[path]} ∪ files w;
                            outbox := outbox w |})
  | Raise e => (Raise e, w)
  end.

(** [os.remove(path)] *)
Definition remove (env : update_env) (path : string) : handler unit := λ w,
  match os_remove env with
  | Some e => (Raise e, w)
  | None =>
      if decide (path ∈ files w)
      then (Ok (), {| ledger := ledger w; files := files w ∖ {[path]};
                      outbox := outbox w |})
      else (Raise (ExternalError "FileNotFoundError"), w)
  end.

(** ** The enrichment loop (main.py, lines 117-152) *)

Record tally : Type := mk_tally {
  word_list : list word_dict;
  total_prompt_tokens : Z;
  total_completion_tokens : Z;
  total_tokens_used : Z          (* the local [total_tokens] *)
}.

Definition tally0 : tally :=
  {| word_list := []; total_prompt_tokens := 0; total_completion_tokens := 0;
     total_tokens_used := 0 |}.

(** Lines 146-152: three additions in one [try]; the first that raises
    leaves the block, the ones before it having taken effect. *)
Definition add_usage (u : option usage_t) (t : tally) : tally :=
  match u with
  | None => t
  | Some u =>
      match prompt_tokens u with
      | None => t
      | Some p =>
          let t1 := {| word_list := word_list t;
                       total_prompt_tokens := total_prompt_tokens t + p;
                       total_completion_tokens := total_completion_tokens t;
                       total_tokens_used := total_tokens_used t |} in
          match completion_tokens u with
          | None => t1
          | Some c =>
              let t2 := {| word_list := word_list t1;
                           total_prompt_tokens := total_prompt_tokens t1;
                           total_completion_tokens :=
                             total_completion_tokens t1 + c;
                           total_tokens_used := total_tokens_used t1 |} in
              match usage_total_tokens u with
              | None => t2
              | Some n =>
                  {| word_list := word_list t2;
                     total_prompt_tokens := total_prompt_tokens t2;
                     total_completion_tokens := total_completion_tokens t2;
                     total_tokens_used := total_tokens_used t2 + n |}
              end
          end
      end
  end.

(** One round of the loop, lines 124-152. *)
Definition enrich_word (env : update_env) (w : string) (t : tally)
    : handler tally :=
  resp ← lift (chat_completion env w);
  match content resp with
  | Raise _ => mret t                                    (* [continue] *)
  | Ok data =>
      tr ← lift (py_get data "translate" not_found);
      df ← lift (py_get data "definition" not_found);
      let entry := {| word := w; translate := tr; definition := df |} in
      mret (add_usage (usage resp)
              {| word_list := word_list t ++ [entry];
                 total_prompt_tokens := total_prompt_tokens t;
                 total_completion_tokens := total_completion_tokens t;
                 total_tokens_used := total_tokens_used t |})
  end.

Fixpoint enrich_words (env : update_env) (words : list string) (t : tally)
    : handler tally :=
  match words with
  | [] => mret t
  | w :: words' => t' ← enrich_word env w t; enrich_words env words' t'
  end.

(** Lines 155-161. *)
Fixpoint send_cards (env : update_env) (l : list word_dict) : handler unit :=
  match l with
  | [] => mret ()
  | w :: l' => reply env (WordCard w);; send_cards env l'
  end.

(** ** Costs (main.py, lines 102-104 and 163-166) *)

Definition whisper_cost (duration_sec : Z) : result float :=
  match int_to_float duration_sec with
  | Ok d => Ok (d / 60.0 * 0.006)%float
  | Raise e => Raise e
  end.

Definition input_price_per_token : float := (0.40 / 1000000.0)%float.
Definition output_price_per_token : float := (1.60 / 1000000.0)%float.

Definition gpt_cost (prompt completion : Z) : result float :=
  match int_to_float prompt with
  | Ok p =>
      match int_to_float completion with
      | Ok c =>
          Ok (p * input_price_per_token + c * output_price_per_token)%float
      | Raise e => Raise e
      end
  | Raise e => Raise e
  end.

(** ** The voice handler (main.py, lines 82-178) *)

Definition model_name : string := "gpt-4.1-mini".

Definition duration_note (duration_sec : Z) : string :=
  "voice duration: " +:+ pretty duration_sec +:+ " seconds".

(** The body of the [try], lines 92-168. *)
Definition recognize_and_bill `{U : unicode} (env : update_env)
    (duration_sec : Z) : handler unit :=
  text ← lift (transcription env);
  reply env (RecognizedText text);;
  whisper ← lift (whisper_cost duration_sec);
  whisper_added ← bill "whisper-1" whisper 0 (duration_note duration_sec);
  reply env (WhisperBilled (raw_sum whisper_added) (sum_uzs whisper_added));;
  t ← enrich_words env (words_of text) tally0;
  send_cards env (word_list t);;
  gpt ← lift (gpt_cost (total_prompt_tokens t) (total_completion_tokens t));
  gpt_added ← bill model_name gpt (total_tokens_used t) "per voice analysis";
  reply env (GptBilled (total_tokens_used t) (raw_sum gpt_added)
                       (sum_uzs gpt_added)).

Definition handle_voice `{U : unicode} (env : update_env) : handler unit :=
  match voice env with
  | None => mret ()
  | Some duration_sec =>
      check (get_file env);;
      ogg_path ← create_temp env;
      check (download_to_drive env);;
      try_finally
        (try_except (recognize_and_bill env duration_sec)
           (λ e, reply env (RecognitionError (exn_str e))))
        (try_except (remove env ogg_path) (λ _, mret ()))
  end.

(** [error_handler], lines 64-79, for an update that carries a message and
    no callback query. *)
Definition error_handler (env : update_env) (e : exn) : handler unit :=
  reply env GenericError.

(** The dispatch of a voice update: the handler, and the error handler for
    an exception that leaves it; what the error handler raises itself is
    logged by the framework and goes no further. *)
Definition process_update `{U : unicode} (env : update_env) (w : world)
    : world :=
  match handle_voice env w with
  | (Ok _, w') => w'
  | (Raise e, w') => snd (error_handler env e w')
  end.

(** [balance_command], lines 47-61. *)
Definition balance_command (env : update_env) : handler unit := λ w,
  match entries (ledger w) with
  | [] => reply env BalanceEmpty w
  | _ => reply env (BalanceSummary (entries (ledger w)) (total_raw (ledger w))
                      (total_uzs (ledger w)) (total_tokens (ledger w))) w
  end.

(** The world as the process starts. *)
Definition world0 : world :=
  {| ledger := billing; files := ∅; outbox := [] |}.

(** ** Example updates

    The transcripts of the examples are 7-bit text; the statements about
    them run the handler with the tables of [seven_bit]. *)

(** A response that follows the prompt: an object with fields [fields] and
    the three counters. *)
Record completion : Type := mk_completion {
  fields : gmap string pyval;
  used_prompt : Z;
  used_completion : Z;
  used_total : Z
}.

Definition well_formed (c : completion) : response :=
  {| content := Ok (PDict (fields c));
     usage := Some {| prompt_tokens := Some (used_prompt c);
                      completion_tokens := Some (used_completion c);
                      usage_total_tokens := Some (used_total c) |} |}.

Definition both_fields (tr df : string) : gmap string pyval :=
  {[ "translate" := PStr tr; "definition" := PStr df ]}.

(** Scenario 1 of the specification: 30 seconds, five words, every service
    answering; each completion uses 80 prompt and 20 completion tokens. *)
Definition sunsets_update : update_env :=
  {| voice := Some 30;
     get_file := None;
     named_temporary_file := Ok "/tmp/tmpk3v9.ogg";
     download_to_drive := None;
     transcription := Ok "I really enjoyed watching sunsets yesterday";
     chat_completion := λ w,
       Ok (well_formed {| fields := both_fields ("uz " +:+ w) "izoh";
                          used_prompt := 80; used_completion := 20;
                          used_total := 100 |});
     reply_text := λ _, None;
     os_remove := None |}.

Definition with_transcription (r : result string) (env : update_env)
    : update_env :=
  {| voice := voice env; get_file := get_file env;
     named_temporary_file := named_temporary_file env;
     download_to_drive := download_to_drive env;
     transcription := r;
     chat_completion := chat_completion env;
     reply_text := reply_text env; os_remove := os_remove env |}.

Definition with_chat_completion (f : string → result response)
    (env : update_env) : update_env :=
  {| voice := voice env; get_file := get_file env;
     named_temporary_file := named_temporary_file env;
     download_to_drive := download_to_drive env;
     transcription := transcription env;
     chat_completion := f;
     reply_text := reply_text env; os_remove := os_remove env |}.


Definition with_download (r : option exn) (env : update_env) : update_env :=
  {| voice := voice env; get_file := get_file env;
     named_temporary_file := named_temporary_file env;
     download_to_drive := r;
     transcription := transcription env;
     chat_completion := chat_completion env;
     reply_text := reply_text env; os_remove := os_remove env |}.

Definition with_os_remove (r : option exn) (env : update_env) : update_env :=
  {| voice := voice env; get_file := get_file env;
     named_temporary_file := named_temporary_file env;
     download_to_drive := download_to_drive env;
     transcription := transcription env;
     chat_completion := chat_completion env;
     reply_text := reply_text env; os_remove := r |}.


(** Whisper is unreachable and the temporary file cannot be deleted. *)
Definition whisper_down_file_locked : update_env :=
  with_transcription (Raise (ExternalError "Connection error."))
    (with_os_remove (Some (ExternalError "PermissionError")) sunsets_update).

(** Whisper is unreachable; everything else answers. *)
Definition whisper_down : update_env :=
  with_transcription (Raise (ExternalError "Connection error."))
    sunsets_update.

(** The download of the voice file times out. *)
Definition download_times_out : update_env :=
  with_download (Some (ExternalError "Timed out")) sunsets_update.

(** The platform does not hand out the file. *)
Definition fetch_fails : update_env :=
  {| voice := voice sunsets_update;
     get_file := Some (ExternalError "Timed out");
     named_temporary_file := named_temporary_file sunsets_update;
     download_to_drive := download_to_drive sunsets_update;
     transcription := transcription sunsets_update;
     chat_completion := chat_completion sunsets_update;
     reply_text := reply_text sunsets_update;
     os_remove := os_remove sunsets_update |}.

(** The model answers the word "enjoyed" with a JSON array. *)
Definition array_answer : update_env :=
  with_chat_completion
    (λ w, if decide (w = "enjoyed")
          then Ok {| content := Ok (PList []);
                     usage := Some {| prompt_tokens := Some 80;
                                      completion_tokens := Some 20;
                                      usage_total_tokens := Some 100 |} |}
          else chat_completion sunsets_update w)
    sunsets_update.

(** The model answers the word "enjoyed" with text that is no JSON. *)
Definition garbled_answer : update_env :=
  with_chat_completion
    (λ w, if decide (w = "enjoyed")
          then Ok {| content := Raise (ExternalError "JSONDecodeError");
                     usage := Some {| prompt_tokens := Some 80;
                                      completion_tokens := Some 20;
                                      usage_total_tokens := Some 100 |} |}
          else chat_completion sunsets_update w)
    sunsets_update.

(** A usage object whose completion counter is [None]. *)
Definition partial_usage : usage_t :=
  {| prompt_tokens := Some 80; completion_tokens := None;
     usage_total_tokens := Some 100 |}.

(** A one-word transcript answered with that usage object. *)
Definition partial_usage_update : update_env :=
  with_transcription (Ok "Sunsets")
    (with_chat_completion
       (λ w, Ok {| content := Ok (PDict (both_fields "quyosh botishi" "izoh"));
                   usage := Some partial_usage |})
       sunsets_update).



(** A response for the word "really" without the [translate] field. *)
Definition no_translation : update_env :=
  with_chat_completion
    (λ w, if decide (w = "really")
          then Ok (well_formed {| fields := {[ "definition" := PStr "izoh" ]};
                                  used_prompt := 80; used_completion := 20;
                                  used_total := 100 |})
          else chat_completion sunsets_update w)
    sunsets_update.



(** ** The dispatch loop (main.py, lines 180-203) *)

(** [start], line 182. *)
Definition start (env : update_env) : handler unit := reply env Greeting.

Inductive update : Type :=
| VoiceMessage (env : update_env)
| BalanceCommand (env : update_env)
| StartCommand (env : update_env).

(** One update handled: its handler, then the error handler for an
    exception that leaves it. *)
Definition dispatch `{U : unicode} (w : world) (u : update) : world :=
  match u with
  | VoiceMessage env => process_update env w
  | BalanceCommand env =>
      match balance_command env w with
      | (Ok _, w') => w'
      | (Raise e, w') => snd (error_handler env e w')
      end
  | StartCommand env =>
      match start env w with
      | (Ok _, w') => w'
      | (Raise e, w') => snd (error_handler env e w')
      end
  end.

(** The worlds the process can be in between two updates. *)
Inductive reachable `{U : unicode} : world → Prop :=
| reachable_start : reachable world0
| reachable_step w u : reachable w → reachable (dispatch w u).

(** The ledger of [w'] is the ledger of [w] after some calls of
    [add_billing_entry]. *)
Definition ledger_extended (w w' : world) : Prop :=
  ∃ calls : list record_call, ledger w' = record_all (ledger w) calls.

(** A handler that touches the ledger through [add_billing_entry] only. *)
Definition extends_ledger {A} (h : handler A) : Prop :=
  ∀ w, ledger_extended w (h w).2.

(** ** Statements about the extractor and the runs *)

(** The characters [\w] matches that are no upper-case letters. *)
Definition is_lower_word_ascii (c : ascii) : bool :=
  let n := N_of_ascii c in
  ((48 <=? n) && (n <=? 57) || (97 <=? n) && (n <=? 122) || (n =? 95))%N.

(** A handler that creates and deletes no file. *)
Definition keeps_files {A} (h : handler A) : Prop :=
  ∀ w, files (h w).2 = files w.

(** The card the loop makes for a word, when it makes one: the call
    returns and its content parses as an object. *)
Definition card_for (env : update_env) (w : string) : option word_dict :=
  match chat_completion env w with
  | Ok resp =>
      match content resp with
      | Ok (PDict d) =>
          Some {| word := w;
                  translate := default not_found (d !! "translate");
                  definition := default not_found (d !! "definition") |}
      | _ => None
      end
  | Raise _ => None
  end.

(** What one update may append to the ledger. *)
Inductive run_entries : list entry → Prop :=
| run_nothing : run_entries []
| run_whisper e1 :
    model e1 = "whisper-1" → tokens e1 = 0 → run_entries [e1]
| run_both e1 e2 :
    model e1 = "whisper-1" → tokens e1 = 0 → model e2 = "gpt-4.1-mini" →
    run_entries [e1; e2].

(** A ledger in which every entry is one for Whisper, with no tokens, or
    one for the model that comes right after one for Whisper. *)
Inductive paired : list entry → Prop :=
| paired_nil : paired []
| paired_whisper e1 l :
    model e1 = "whisper-1" → tokens e1 = 0 → paired l → paired (e1 :: l)
| paired_both e1 e2 l :
    model e1 = "whisper-1" → tokens e1 = 0 → model e2 = "gpt-4.1-mini" →
    paired l → paired (e1 :: e2 :: l).


(** Whether the loop gets past a word: the call returns, and its content
    does not parse or parses as an object. *)
Definition passes (env : update_env) (w : string) : bool :=
  match chat_completion env w with
  | Ok resp =>
      match content resp with
      | Ok (PDict _) | Raise _ => true
      | Ok _ => false
      end
  | Raise _ => false
  end.

(** How a word was answered: with a well-formed completion, or ([None])
    with one whose content does not parse. *)
Definition answered (env : update_env) (w : string)
    (a : option completion) : Prop :=
  match a with
  | Some c => chat_completion env w = Ok (well_formed c)
  | None => ∃ resp e, chat_completion env w = Ok resp ∧ content resp = Raise e
  end.





(* ===================================================================== *)
(** * Part II: properties                                                 *)
(* ===================================================================== *)

(** ** The ledger *)

Lemma record_entries b c :
  entries (record b c) = entries b ++ [entry_of_call c].
Proof. reflexivity. Qed.

Lemma record_all_entries calls : ∀ b,
  entries (record_all b calls) = entries b ++ (entry_of_call <$> calls).
Proof.
  induction calls as [|c calls IH]; intros b; simpl.
  - by rewrite app_nil_r.
  - rewrite IH, record_entries, <- app_assoc. reflexivity.
Qed.

Lemma record_totals_match b c : totals_match b → totals_match (record b c).
Proof.
  intros (Hr & Hu & Ht). unfold totals_match, float_sum, int_sum.
  rewrite record_entries, !fmap_app, !foldl_app. simpl.
  unfold float_sum, int_sum in *. rewrite <- Hr, <- Hu, <- Ht. done.
Qed.

Lemma record_all_totals_match calls : ∀ b,
  totals_match b → totals_match (record_all b calls).
Proof.
  induction calls as [|c calls IH]; intros b Hb; simpl; [done|].
  apply IH, record_totals_match, Hb.
Qed.

(** C1. Starting from the empty ledger, after any finite sequence of
    [add_billing_entry] calls each running total equals the sum of its field
    over the entry list (so all three are zero after no call); the entry
    list after a longer sequence is the list after any prefix of it followed
    by the entries of the remaining calls: entries are appended, none is
    removed or changed. *)
Theorem C1_ledger_totals_are_sums :
  (total_raw billing = 0.0%float ∧ total_uzs billing = 0.0%float ∧
   total_tokens billing = 0 ∧ entries billing = []) ∧
  (∀ calls : list record_call, totals_match (record_all billing calls)) ∧
  (∀ calls more : list record_call,
     entries (record_all billing (calls ++ more)) =
     entries (record_all billing calls) ++ (entry_of_call <$> more)).
Proof.
  split; [done|]. split.
  - intros calls. apply record_all_totals_match. done.
  - intros calls more. rewrite !record_all_entries, fmap_app, app_assoc. done.
Qed.

Lemma record_all_display_cost calls : ∀ b,
  Forall (λ e, sum_uzs e = (raw_sum e * USD_TO_UZS)%float) (entries b) →
  Forall (λ e, sum_uzs e = (raw_sum e * USD_TO_UZS)%float)
    (entries (record_all b calls)).
Proof.
  intros b Hb. rewrite record_all_entries. apply Forall_app. split; [done|].
  apply Forall_fmap, Forall_forall. intros c _. reflexivity.
Qed.

(** C4. Every entry [add_billing_entry] creates has as display cost its raw
    cost multiplied by the exchange rate 20000.2, whatever the raw cost
    passed, and so has every entry of a ledger built by such calls. The two
    are the same double; Python's [==] holds between them unless the
    product is a NaN, which compares unequal to itself. *)
Theorem C4_display_cost_is_raw_cost_times_rate :
  USD_TO_UZS = 20000.2%float ∧
  (∀ (model_name : string) (cost_usd : float) (tokens : Z) (note : string)
     (b : billing_t),
     let e := fst (add_billing_entry model_name cost_usd tokens note b) in
     raw_sum e = cost_usd ∧
     sum_uzs e = (raw_sum e * USD_TO_UZS)%float ∧
     (PrimFloat.is_nan (raw_sum e * USD_TO_UZS) = false →
      (sum_uzs e =? raw_sum e * USD_TO_UZS)%float = true)) ∧
  (∀ calls : list record_call,
     Forall (λ e, sum_uzs e = (raw_sum e * USD_TO_UZS)%float)
       (entries (record_all billing calls))).
Proof.
  split; [done|]. split.
  - intros model_name cost_usd tokens note b. cbn. split; [done|].
    split; [done|]. unfold PrimFloat.is_nan. apply negb_false_iff.
  - intros calls. apply record_all_display_cost. constructor.
Qed.

(** ** The vocabulary extractor *)

Section extractor_facts.
Context {char : Type} `{Countable char}.
Variable is_word : char → bool.
Variable lower : list char → list char.

Local Abbreviation nonword := (λ c, is_word c = false).
Local Abbreviation wordch := (λ c, is_word c = true).

Lemma more_word_span last s :
  is_word last = true →
  ∃ run rest, more_word is_word last s = Some (run, rest) ∧ s = run ++ rest ∧
    Forall wordch run ∧ word_at is_word (head rest) = false.
Proof.
  revert last. induction s as [|c s IH]; intros last Hlast; simpl.
  - unfold boundary; simpl. rewrite Hlast. simpl. by exists [], [].
  - destruct (is_word c) eqn:Hc.
    + destruct (IH c Hc) as (run & rest & -> & -> & Hrun & Hrest).
      exists (c :: run), rest. repeat split; auto.
    + unfold boundary; simpl. rewrite Hlast, Hc. simpl.
      exists [], (c :: s). repeat split; auto.
Qed.

Lemma word_runs_skip c s toks :
  is_word c = false → word_runs is_word s toks → word_runs is_word (c :: s) toks.
Proof.
  intros Hc Hs. destruct Hs as [sep Hsep|sep tok rest toks Hsep Hne Htok Hrest Hruns].
  - apply runs_done. by constructor.
  - change (c :: sep ++ tok ++ rest) with ((c :: sep) ++ tok ++ rest).
    apply runs_cons; auto.
Qed.

Lemma findall_from_runs fuel : ∀ prev s,
  (length s ≤ fuel)%nat →
  word_at is_word prev && word_at is_word (head s) = false →
  word_runs is_word s (findall_from is_word fuel prev s).
Proof.
  induction fuel as [|fuel IH]; intros prev s Hlen Hinv.
  - destruct s; simpl in *; [|lia]. apply runs_done. constructor.
  - destruct s as [|c s]; simpl.
    { apply runs_done. constructor. }
    simpl in Hlen, Hinv. destruct (is_word c) eqn:Hc.
    + rewrite andb_true_r in Hinv. unfold boundary. simpl. rewrite Hinv, Hc. simpl.
      destruct (more_word_span c s Hc) as (run & rest & -> & -> & Hrun & Hrest).
      change (c :: run ++ rest) with ([] ++ (c :: run) ++ rest).
      apply runs_cons; auto.
      apply IH.
      * rewrite length_app in Hlen. lia.
      * rewrite Hrest. apply andb_false_r.
    + rewrite andb_false_r. apply word_runs_skip; [done|].
      apply IH; [lia|]. simpl. rewrite Hc. done.
Qed.

Lemma findall_runs s : word_runs is_word s (findall is_word s).
Proof. apply findall_from_runs; [done|]. done. Qed.

Lemma sep_unique (sep sep' : list char) x x' l l' :
  Forall nonword sep → Forall nonword sep' →
  is_word x = true → is_word x' = true →
  sep ++ x :: l = sep' ++ x' :: l' → sep = sep' ∧ x :: l = x' :: l'.
Proof.
  revert sep'. induction sep as [|a sep IH]; intros [|a' sep'] Hs Hs' Hx Hx' E;
    simpl in E.
  - done.
  - injection E as -> _. apply Forall_cons_1 in Hs' as [Ha _]. congruence.
  - injection E as -> _. apply Forall_cons_1 in Hs as [Ha _]. congruence.
  - injection E as -> E. apply Forall_cons_1 in Hs as [_ Hs].
    apply Forall_cons_1 in Hs' as [_ Hs'].
    destruct (IH sep' Hs Hs' Hx Hx' E) as [-> ?]. done.
Qed.

Lemma run_unique (tok tok' rest rest' : list char) :
  Forall wordch tok → Forall wordch tok' →
  word_at is_word (head rest) = false → word_at is_word (head rest') = false →
  tok ++ rest = tok' ++ rest' → tok = tok' ∧ rest = rest'.
Proof.
  revert tok'. induction tok as [|a tok IH]; intros [|a' tok'] Ht Ht' Hr Hr' E;
    simpl in E.
  - done.
  - subst rest. simpl in Hr. apply Forall_cons_1 in Ht' as [Ha _]. congruence.
  - subst rest'. simpl in Hr'. apply Forall_cons_1 in Ht as [Ha _]. congruence.
  - injection E as -> E. apply Forall_cons_1 in Ht as [_ Ht].
    apply Forall_cons_1 in Ht' as [_ Ht'].
    destruct (IH tok' Ht Ht' Hr Hr' E) as [-> ->]. done.
Qed.

Lemma word_runs_functional s toks1 toks2 :
  word_runs is_word s toks1 → word_runs is_word s toks2 → toks1 = toks2.
Proof.
  intros H1. revert toks2.
  induction H1 as [sep Hsep|sep tok rest toks Hsep Hne Htok Hrest Hruns IH];
    intros toks2 H2.
  - inversion H2 as [|sep' tok' rest' toks' Hsep' Hne' Htok' Hrest' Hruns' E]; [done|].
    subst. destruct tok' as [|x tok']; [done|].
    apply Forall_cons_1 in Htok' as [Hx _].
    rewrite Forall_app in Hsep. destruct Hsep as [_ Hsep]. simpl in Hsep.
    apply Forall_cons_1 in Hsep as [Hx' _]. congruence.
  - inversion H2 as [sep' Hsep'|sep' tok' rest' toks' Hsep' Hne' Htok' Hrest' Hruns' E].
    + subst. destruct tok as [|x tok]; [done|].
      apply Forall_cons_1 in Htok as [Hx _].
      rewrite Forall_app in Hsep'. destruct Hsep' as [_ Hsep']. simpl in Hsep'.
      apply Forall_cons_1 in Hsep' as [Hx' _]. congruence.
    + subst. destruct tok as [|x tok]; [done|]. destruct tok' as [|x' tok']; [done|].
      simpl in E.
      pose proof Htok as Htok0. pose proof Htok' as Htok0'.
      apply Forall_cons_1 in Htok0 as [Hx _]. apply Forall_cons_1 in Htok0' as [Hx' _].
      destruct (sep_unique _ _ _ _ _ _ Hsep' Hsep Hx' Hx E) as [-> E'].
      change (x' :: tok' ++ rest') with ((x' :: tok') ++ rest') in E'.
      change (x :: tok ++ rest) with ((x :: tok) ++ rest) in E'.
      destruct (run_unique _ _ _ _ Htok' Htok Hrest' Hrest E') as [-> ->].
      f_equal. by apply IH.
Qed.

Lemma unique_long_vocabulary (toks : list (list char)) : ∀ words seen,
  unique_long toks words seen =
  words ++ filter (λ t, (3 < length t)%nat ∧ t ∉ seen) (first_occurrences toks).
Proof.
  induction toks as [|x toks IH]; intros words seen; simpl.
  - by rewrite app_nil_r.
  - destruct (bool_decide (3 < length x)%nat && bool_decide (x ∉ seen)) eqn:Hc.
    + apply andb_true_iff in Hc as [Hl Hs].
      apply bool_decide_eq_true in Hl. apply bool_decide_eq_true in Hs.
      rewrite IH, filter_cons_True by done. rewrite <- app_assoc. simpl.
      do 2 f_equal. rewrite list_filter_filter. apply list_filter_iff.
      intros y. rewrite not_elem_of_union, not_elem_of_singleton. tauto.
    + rewrite IH. f_equal.
      assert (¬ ((3 < length x)%nat ∧ x ∉ seen)) as Hx.
      { intros [Hl Hs]. apply andb_false_iff in Hc as [Hc|Hc];
          apply bool_decide_eq_false in Hc; done. }
      rewrite filter_cons_False by done.
      rewrite list_filter_filter. apply list_filter_iff.
      intros y. split; [|tauto]. intros Hy. split; [done|]. by intros ->.
Qed.

Lemma extract_words_vocabulary text :
  extract_words is_word lower text = vocabulary (findall is_word (lower text)).
Proof.
  unfold extract_words, vocabulary. rewrite unique_long_vocabulary. simpl.
  apply list_filter_iff. intros y. split; [tauto|].
  intros Hy. split; [done|]. apply not_elem_of_empty.
Qed.

End extractor_facts.

(** [first_occurrences] read from left to right: a token is kept when it
    has not been seen before. *)
Lemma first_occurrences_snoc {char : Type} `{Countable char}
    (l : list (list char)) (x : list char) :
  first_occurrences (l ++ [x]) =
  if decide (x ∈ l) then first_occurrences l else first_occurrences l ++ [x].
Proof.
  induction l as [|a l IH]; simpl.
  - done.
  - rewrite IH. destruct (decide (x ∈ l)) as [Hin|Hin].
    + case_decide as Hin'; [done|]. destruct Hin'. by right.
    + rewrite filter_app. destruct (decide (x = a)) as [->|Hne].
      * case_decide as Hin'; [|destruct Hin'; by left].
        rewrite filter_cons_False by (by intros ?). by rewrite filter_nil, app_nil_r.
      * case_decide as Hin'; [by apply elem_of_cons in Hin' as [?|?]|].
        rewrite filter_cons_True by done. done.
Qed.

(** C2. For every text the extracted sequence is made of the maximal runs of
    word characters of the lower-cased text (there is one such list of
    runs), each kept at its first occurrence only and only when longer than
    3 characters, in order of first appearance; the transcript of the
    example yields the five words. *)
Theorem C2_vocabulary_extraction :
  (∀ (char : Type) `(Countable char) (is_word : char → bool)
     (lower : list char → list char) (text : list char),
     ∃ toks : list (list char),
       word_runs is_word (lower text) toks ∧
       (∀ toks', word_runs is_word (lower text) toks' → toks' = toks) ∧
       extract_words is_word lower text = vocabulary toks) ∧
  extract_text "I really enjoyed watching sunsets yesterday" =
    ["really"; "enjoyed"; "watching"; "sunsets"; "yesterday"].
Proof.
  split; [|by vm_compute].
  intros char ? ? is_word lower text. exists (findall is_word (lower text)).
  split; [apply findall_runs|]. split; [|apply extract_words_vocabulary].
  intros toks' Hruns.
  exact (word_runs_functional is_word _ _ _ Hruns (findall_runs is_word _)).
Qed.

(** With the tables of the Latin-1 range the accented words of a transcript
    are words, as they are for the interpreter. *)
Lemma accented_words_are_extracted :
  @words_of latin_1 "Café society naïve" = ["café"; "society"; "naïve"] ∧
  @words_of latin_1 "ÉCOLE, école: déjà-vu à l'Été" =
    ["école"; "déjà"].
Proof. split; by vm_compute. Qed.

(** On 7-bit text the handler's word list is [extract_text]. *)
Lemma words_of_seven_bit (text : string) :
  @words_of seven_bit text = extract_text text.
Proof. reflexivity. Qed.

(** ** Handlers *)

Lemma bind_ok {A B} (m : handler A) (f : A → handler B) w a w' :
  m w = (Ok a, w') → (m ≫= f) w = f a w'.
Proof. intros E. unfold mbind, handler_bind. by rewrite E. Qed.

Lemma bind_raise {A B} (m : handler A) (f : A → handler B) w e w' :
  m w = (Raise e, w') → (m ≫= f) w = (Raise e, w').
Proof. intros E. unfold mbind, handler_bind. by rewrite E. Qed.

Lemma reply_delivered env m w :
  reply_text env m = None →
  reply env m w =
  (Ok (), {| ledger := ledger w; files := files w; outbox := outbox w ++ [m] |}).
Proof. intros E. unfold reply. by rewrite E. Qed.

Lemma reply_frame env m w :
  ledger (reply env m w).2 = ledger w ∧ files (reply env m w).2 = files w.
Proof. unfold reply. by destruct (reply_text env m). Qed.

(** ** The enrichment loop *)

(** C7 (as amended). A response that parses as an object yields a
    vocabulary entry for the word, added to the list without an exception:
    each of the two fields is the response's value when it has the field and
    the string "Not found", with a capital N, when it lacks it. *)
Theorem C7_missing_field_gets_the_sentinel
    (env : update_env) (w : string) (resp : response)
    (d : gmap string pyval) (t : tally) (w0 : world) :
  chat_completion env w = Ok resp →
  content resp = Ok (PDict d) →
  ∃ t' : tally,
    enrich_word env w t w0 = (Ok t', w0) ∧
    word_list t' =
      word_list t ++
      [{| word := w;
          translate := match d !! "translate" with
                       | Some v => v
                       | None => PStr "Not found"
                       end;
          definition := match d !! "definition" with
                        | Some v => v
                        | None => PStr "Not found"
                        end |}].
Proof.
  intros Hcall Hcontent. unfold enrich_word.
  rewrite (bind_ok _ _ w0 resp w0) by (unfold lift; by rewrite Hcall).
  rewrite Hcontent. cbn.
  eexists. split; [reflexivity|].
  destruct (usage resp) as [[[p|] [c|] [n|]]|]; cbn;
    by destruct (d !! "translate"), (d !! "definition").
Qed.

Lemma C7_witness :
  ∃ t' : tally,
    enrich_word no_translation "really" tally0 world0 = (Ok t', world0) ∧
    word_list t' =
      [{| word := "really"; translate := PStr "Not found";
          definition := PStr "izoh" |}].
Proof.
  destruct (C7_missing_field_gets_the_sentinel no_translation "really"
              (well_formed {| fields := {[ "definition" := PStr "izoh" ]};
                              used_prompt := 80; used_completion := 20;
                              used_total := 100 |})
              {[ "definition" := PStr "izoh" ]} tally0 world0
              eq_refl eq_refl) as (t' & Hrun & Hlist).
  exists t'. split; [exact Hrun|exact Hlist].
Defined.

(** The claim C7 fails on the string: for an answer without the translation
    the entry holds "Not found", which is another string than the
    "not found" the claim names. *)
Lemma C7_counterexample_sentinel_spelling :
  chat_completion no_translation "really" =
    Ok (well_formed {| fields := {[ "definition" := PStr "izoh" ]};
                       used_prompt := 80; used_completion := 20;
                       used_total := 100 |}) ∧
  (enrich_word no_translation "really" tally0 world0).1 =
    Ok {| word_list := [{| word := "really"; translate := PStr "Not found";
                           definition := PStr "izoh" |}];
          total_prompt_tokens := 80; total_completion_tokens := 20;
          total_tokens_used := 100 |} ∧
  PStr "Not found" ≠ PStr "not found".
Proof. split; [reflexivity|]. split; [reflexivity|discriminate]. Qed.

Lemma enrich_word_dropped env w resp e t w0 :
  chat_completion env w = Ok resp → content resp = Raise e →
  enrich_word env w t w0 = (Ok t, w0).
Proof.
  intros Hcall Hcontent. unfold enrich_word.
  rewrite (bind_ok _ _ w0 resp w0) by (unfold lift; by rewrite Hcall).
  by rewrite Hcontent.
Qed.


Lemma send_cards_delivered env (l : list word_dict) :
  (∀ m, reply_text env m = None) →
  ∀ w, send_cards env l w =
       (Ok (), {| ledger := ledger w; files := files w;
                  outbox := outbox w ++ (WordCard <$> l) |}).
Proof.
  intros Hr. induction l as [|c l IH]; intros w; simpl.
  - rewrite app_nil_r. by destruct w.
  - erewrite bind_ok; last by apply reply_delivered.
    rewrite IH. cbn. by rewrite <- app_assoc.
Qed.

(** ** The voice handler *)

(** The [finally] block returns, and touches nothing but the file. *)
Lemma cleanup_returns env path w :
  ∃ w', try_except (remove env path) (λ _, mret ()) w = (Ok (), w') ∧
        ledger w' = ledger w ∧ outbox w' = outbox w ∧
        files w' = match os_remove env with
                   | None => files w ∖ {[path]}
                   | Some _ => files w
                   end.
Proof.
  unfold try_except, remove. destruct (os_remove env) as [e|].
  - by exists w.
  - destruct (decide (path ∈ files w)) as [Hin|Hout].
    + eexists. split; [reflexivity|]. done.
    + exists w. repeat split. symmetry. apply difference_disjoint_L.
      by apply disjoint_singleton_r.
Qed.

(** Past the download the handler is its [try] statement, run in a world
    that holds the temporary file. *)
Lemma handle_voice_downloaded `{U : unicode} env d path w :
  voice env = Some d → get_file env = None →
  named_temporary_file env = Ok path → download_to_drive env = None →
  handle_voice env w =
  try_finally
    (try_except (recognize_and_bill env d)
       (λ e, reply env (RecognitionError (exn_str e))))
    (try_except (remove env path) (λ _, mret ()))
    {| ledger := ledger w; files := {[path]} ∪ files w; outbox := outbox w |}.
Proof.
  intros Hv Hg Ht Hd. unfold handle_voice. rewrite Hv.
  unfold check, create_temp. rewrite Hg, Hd, Ht. reflexivity.
Qed.

(** The body of the [try] when every service answers and every message is
    delivered, given what the enrichment loop returns. *)
Lemma recognize_and_bill_delivered `{U : unicode} env d text dur t g w :
  transcription env = Ok text →
  (∀ m, reply_text env m = None) →
  int_to_float d = Ok dur →
  (∀ w1, enrich_words env (words_of text) tally0 w1 = (Ok t, w1)) →
  gpt_cost (total_prompt_tokens t) (total_completion_tokens t) = Ok g →
  recognize_and_bill env d w =
  (Ok (),
   {| ledger :=
        record_all (ledger w)
          [ mk_call "whisper-1" (dur / 60.0 * 0.006)%float 0 (duration_note d);
            mk_call model_name g (total_tokens_used t) "per voice analysis" ];
      files := files w;
      outbox :=
        outbox w ++
        [ RecognizedText text;
          WhisperBilled (dur / 60.0 * 0.006)%float
                        (dur / 60.0 * 0.006 * USD_TO_UZS)%float ] ++
        (WordCard <$> word_list t) ++
        [ GptBilled (total_tokens_used t) g (g * USD_TO_UZS)%float ] |}).
Proof.
  intros Htr Hr Hdur Hloop Hg. unfold recognize_and_bill.
  unfold lift. rewrite Htr. unfold mbind, handler_bind. cbn.
  rewrite (reply_delivered _ _ _ (Hr _)). cbn.
  unfold whisper_cost. rewrite Hdur. cbn.
  rewrite (reply_delivered _ _ _ (Hr _)). cbn.
  rewrite Hloop. cbn.
  rewrite (send_cards_delivered _ _ Hr). cbn.
  rewrite Hg. cbn.
  rewrite (reply_delivered _ _ _ (Hr _)). cbn.
  do 2 f_equal. rewrite <- !app_assoc. reflexivity.
Qed.

(** A run that reaches the end of its [try] block: the world after the
    dispatch is the world after the block, less the temporary file when
    the deletion returns. *)
Lemma process_update_of_body `{U : unicode} env d path w w1 :
  voice env = Some d → get_file env = None →
  named_temporary_file env = Ok path → download_to_drive env = None →
  recognize_and_bill env d
    {| ledger := ledger w; files := {[path]} ∪ files w; outbox := outbox w |}
  = (Ok (), w1) →
  ledger (process_update env w) = ledger w1 ∧
  outbox (process_update env w) = outbox w1.
Proof.
  intros Hv Hg Ht Hd Hbody. unfold process_update.
  rewrite (handle_voice_downloaded env d path w) by done.
  unfold try_finally.
  replace (try_except (recognize_and_bill env d) _ _) with (Ok (), w1)
    by (unfold try_except; by rewrite Hbody).
  destruct (cleanup_returns env path w1) as (w' & -> & Hl & Ho & _). done.
Qed.









(** C5 (as amended). On a run whose transcription step raises, the ledger
    is left as it was and the [finally] block runs: when [os.remove]
    returns, the temporary file does not exist after the run; when
    [os.remove] raises, the exception is swallowed and the file is still
    there. *)
Theorem C5_failed_transcription_bills_nothing_and_cleans_up `{U : unicode}
    (env : update_env) (w : world) (d : Z) (path : string) (e : exn) :
  voice env = Some d →
  get_file env = None →
  named_temporary_file env = Ok path →
  download_to_drive env = None →
  transcription env = Raise e →
  ledger (process_update env w) = ledger w ∧
  (os_remove env = None → path ∉ files (process_update env w)) ∧
  (os_remove env ≠ None → path ∈ files (process_update env w)).
Proof.
  intros Hv Hg Ht Hd Htr. unfold process_update.
  rewrite (handle_voice_downloaded env d path w) by done.
  unfold try_finally.
  set (w0 := {| ledger := ledger w; files := {[path]} ∪ files w;
                outbox := outbox w |}).
  assert (∃ r w1, try_except (recognize_and_bill env d)
                   (λ e, reply env (RecognitionError (exn_str e))) w0 = (r, w1) ∧
                  ledger w1 = ledger w ∧ files w1 = {[path]} ∪ files w)
    as (r & w1 & -> & Hl1 & Hf1).
  { unfold try_except, recognize_and_bill.
    rewrite (bind_raise _ _ w0 e w0) by (unfold lift; by rewrite Htr).
    destruct (reply_frame env (RecognitionError (exn_str e)) w0) as [Hl Hf].
    destruct (reply env (RecognitionError (exn_str e)) w0) as [r w1].
    by exists r, w1. }
  destruct (cleanup_returns env path w1) as (w2 & -> & Hl2 & _ & Hf2).
  assert (∃ w3, match r with
                | Ok _ => w2
                | Raise e0 => (error_handler env e0 w2).2
                end = w3 ∧ ledger w3 = ledger w2 ∧ files w3 = files w2)
    as (w3 & -> & Hl3 & Hf3).
  { destruct r as [[]|e0]; [by exists w2|].
    eexists. split; [reflexivity|]. apply reply_frame. }
  rewrite Hl3, Hl2, Hl1, Hf3, Hf2, Hf1. split; [done|].
  destruct (os_remove env) as [e0|]; split; try done.
  - intros _. apply elem_of_union_l, elem_of_singleton. done.
  - intros _. rewrite elem_of_difference, elem_of_singleton. tauto.
Qed.

Lemma C5_witness :
  ledger (process_update whisper_down world0) = ledger world0 ∧
  "/tmp/tmpk3v9.ogg" ∉ files (process_update whisper_down world0).
Proof.
  destruct (C5_failed_transcription_bills_nothing_and_cleans_up whisper_down
              world0 30 "/tmp/tmpk3v9.ogg" (ExternalError "Connection error.")
              eq_refl eq_refl eq_refl eq_refl eq_refl) as (Hl & Hgone & _).
  split; [exact Hl | exact (Hgone eq_refl)].
Defined.

(** The claim C5 fails where the deletion fails as well: the transcription
    raised, and the temporary file exists after the run. *)
Lemma C5_counterexample_file_locked :
  transcription whisper_down_file_locked =
    Raise (ExternalError "Connection error.") ∧
  "/tmp/tmpk3v9.ogg" ∈ files (process_update whisper_down_file_locked world0).
Proof.
  split; [reflexivity|]. apply (bool_decide_unpack _). by vm_compute.
Qed.

(** C6 (the code on a failing download). The download raises after the
    temporary file was created; the exception leaves the handler before its
    [try] statement, the user gets the generic message of the error handler,
    and the file is still there after the run. *)
Theorem C6_failed_download_leaves_the_file :
  download_to_drive download_times_out = Some (ExternalError "Timed out") ∧
  (handle_voice download_times_out world0).1 =
    Raise (ExternalError "Timed out") ∧
  outbox (process_update download_times_out world0) = [GenericError] ∧
  "/tmp/tmpk3v9.ogg" ∈ files (process_update download_times_out world0).
Proof.
  split; [reflexivity|]. split; [by vm_compute|]. split; [by vm_compute|].
  apply (bool_decide_unpack _). by vm_compute.
Qed.

(** C8 (the code on an answer that is JSON and no object). The word is not
    dropped: [data.get] raises, the run is aborted with the exception's text
    shown to the user, no later word gets its card and the entry for the
    model is never recorded. *)
Theorem C8_array_answer_aborts_the_run :
  chat_completion array_answer "enjoyed" =
    Ok {| content := Ok (PList []);
          usage := Some {| prompt_tokens := Some 80;
                           completion_tokens := Some 20;
                           usage_total_tokens := Some 100 |} |} ∧
  outbox (process_update array_answer world0) =
    [ RecognizedText "I really enjoyed watching sunsets yesterday";
      WhisperBilled (30 / 60.0 * 0.006)%float
                    (30 / 60.0 * 0.006 * USD_TO_UZS)%float;
      RecognitionError "'list' object has no attribute 'get'" ] ∧
  model <$> entries (ledger (process_update array_answer world0)) =
    ["whisper-1"].
Proof. split; [reflexivity|]. split; by vm_compute. Qed.

(** C9 (the code on a usage object with one malformed counter). The prompt
    counter is added before the completion counter raises, so the call
    contributes its 80 prompt tokens, and they are billed. *)
Theorem C9_partial_usage_is_counted :
  add_usage (Some partial_usage) tally0 =
    {| word_list := []; total_prompt_tokens := 80;
       total_completion_tokens := 0; total_tokens_used := 0 |} ∧
  (λ e, (raw_sum e, tokens e)) <$>
    entries (ledger (process_update partial_usage_update world0)) =
    [ ((30 / 60.0 * 0.006)%float, 0);
      ((80 * (0.40 / 1000000.0) + 0 * (1.60 / 1000000.0))%float, 0) ].
Proof. split; [reflexivity|]. by vm_compute. Qed.




(** ** The ledger under the handlers *)

Lemma ledger_extended_refl w : ledger_extended w w.
Proof. by exists []. Qed.

Lemma ledger_extended_trans w1 w2 w3 :
  ledger_extended w1 w2 → ledger_extended w2 w3 → ledger_extended w1 w3.
Proof.
  intros [c1 E1] [c2 E2]. exists (c1 ++ c2).
  rewrite E2, E1. unfold record_all. by rewrite foldl_app.
Qed.

Lemma ledger_extended_same w w' : ledger w' = ledger w → ledger_extended w w'.
Proof. intros E. by exists []. Qed.

Create HintDb ledger discriminated.

Lemma extends_ret {A} (a : A) : extends_ledger (mret a).
Proof. intros w. apply ledger_extended_refl. Qed.

Lemma extends_lift {A} (r : result A) : extends_ledger (lift r).
Proof. intros w. apply ledger_extended_refl. Qed.

Lemma extends_check r : extends_ledger (check r).
Proof. intros w. apply ledger_extended_refl. Qed.

Lemma extends_reply env m : extends_ledger (reply env m).
Proof. intros w. apply ledger_extended_same, reply_frame. Qed.

Lemma extends_bill model_name cost tokens note :
  extends_ledger (bill model_name cost tokens note).
Proof. intros w. by exists [mk_call model_name cost tokens note]. Qed.

Lemma extends_create_temp env : extends_ledger (create_temp env).
Proof.
  intros w. apply ledger_extended_same. unfold create_temp.
  by destruct (named_temporary_file env).
Qed.

Lemma extends_remove env path : extends_ledger (remove env path).
Proof.
  intros w. apply ledger_extended_same. unfold remove.
  destruct (os_remove env); [done|]. by destruct (decide _).
Qed.

Lemma extends_bind {A B} (m : handler A) (f : A → handler B) :
  extends_ledger m → (∀ a, extends_ledger (f a)) → extends_ledger (m ≫= f).
Proof.
  intros Hm Hf w. unfold mbind, handler_bind.
  specialize (Hm w). destruct (m w) as [[a|e] w1]; [|done].
  eapply ledger_extended_trans; [exact Hm|apply Hf].
Qed.

Lemma extends_try_except {A} (body : handler A) (on_error : exn → handler A) :
  extends_ledger body → (∀ e, extends_ledger (on_error e)) →
  extends_ledger (try_except body on_error).
Proof.
  intros Hb He w. unfold try_except.
  specialize (Hb w). destruct (body w) as [[a|e] w1]; [done|].
  eapply ledger_extended_trans; [exact Hb|apply He].
Qed.

Lemma extends_try_finally {A} (body : handler A) (cleanup : handler unit) :
  extends_ledger body → extends_ledger cleanup →
  extends_ledger (try_finally body cleanup).
Proof.
  intros Hb Hc w. unfold try_finally.
  specialize (Hb w). destruct (body w) as [r w1].
  specialize (Hc w1). destruct (cleanup w1) as [[[]|e] w2];
    by eapply ledger_extended_trans.
Qed.

#[local] Hint Resolve extends_ret extends_lift extends_check extends_reply
  extends_bill extends_create_temp extends_remove : ledger.
#[local] Hint Extern 2 (extends_ledger (_ ≫= _)) =>
  apply extends_bind; [|intros ?] : ledger.
#[local] Hint Extern 2 (extends_ledger (try_except _ _)) =>
  apply extends_try_except; [|intros ?] : ledger.
#[local] Hint Extern 2 (extends_ledger (try_finally _ _)) =>
  apply extends_try_finally : ledger.

Lemma extends_enrich_word env w t : extends_ledger (enrich_word env w t).
Proof.
  unfold enrich_word. apply extends_bind; [auto with ledger|].
  intros resp. destruct (content resp); auto 10 with ledger.
Qed.

Lemma extends_enrich_words env words :
  ∀ t, extends_ledger (enrich_words env words t).
Proof.
  induction words as [|w words IH]; intros t; simpl; [auto with ledger|].
  apply extends_bind; [apply extends_enrich_word|done].
Qed.

Lemma extends_send_cards env l : extends_ledger (send_cards env l).
Proof.
  induction l as [|c l IH]; simpl; [auto with ledger|].
  apply extends_bind; [auto with ledger|done].
Qed.

#[local] Hint Resolve extends_enrich_words extends_send_cards : ledger.

Lemma extends_recognize_and_bill `{U : unicode} env d :
  extends_ledger (recognize_and_bill env d).
Proof. unfold recognize_and_bill. auto 20 with ledger. Qed.

Lemma extends_handle_voice `{U : unicode} env : extends_ledger (handle_voice env).
Proof.
  unfold handle_voice. destruct (voice env); [|auto with ledger].
  pose proof (extends_recognize_and_bill env). auto 20 with ledger.
Qed.

Lemma extends_balance_command env : extends_ledger (balance_command env).
Proof.
  intros w. unfold balance_command.
  destruct (entries (ledger w)); apply extends_reply.
Qed.

Lemma dispatch_extends_ledger `{U : unicode} w u : ledger_extended w (dispatch w u).
Proof.
  assert (∀ env (h : handler unit), extends_ledger h →
    ledger_extended w match h w with
                      | (Ok _, w') => w'
                      | (Raise e, w') => (error_handler env e w').2
                      end) as Hrun.
  { intros env h Hh. specialize (Hh w). destruct (h w) as [[[]|e] w1]; [done|].
    eapply ledger_extended_trans; [exact Hh|apply extends_reply]. }
  destruct u as [env|env|env]; simpl.
  - apply (Hrun env), extends_handle_voice.
  - apply (Hrun env), extends_balance_command.
  - apply (Hrun env), extends_reply.
Qed.

(** Whatever the updates and the answers of the services, the ledger the
    process holds between two updates has totals equal to the sums over its
    entries, each entry with its display cost. *)
Theorem reachable_ledger_is_consistent `{U : unicode} (w : world) :
  reachable w →
  totals_match (ledger w) ∧
  Forall (λ e, sum_uzs e = (raw_sum e * USD_TO_UZS)%float) (entries (ledger w)).
Proof.
  induction 1 as [|w u _ [IHt IHd]].
  - split; [done|constructor].
  - destruct (dispatch_extends_ledger w u) as [calls ->].
    split; [by apply record_all_totals_match|by apply record_all_display_cost].
Qed.

(** An update appends entries to the ledger and leaves the earlier ones in
    place. *)
Theorem dispatch_appends_entries `{U : unicode} (w : world) (u : update) :
  ∃ new : list entry,
    entries (ledger (dispatch w u)) = entries (ledger w) ++ new.
Proof.
  destruct (dispatch_extends_ledger w u) as [calls ->].
  eexists. apply record_all_entries.
Qed.

(** ** Runs that complete, and the faults the loop absorbs *)

Lemma enrich_words_world env words : ∀ t w, (enrich_words env words t w).2 = w.
Proof.
  induction words as [|x words IH]; intros t w; simpl; [done|].
  unfold mbind, handler_bind.
  assert ((enrich_word env x t w).2 = w) as Hw.
  { unfold enrich_word, mbind, handler_bind, lift.
    destruct (chat_completion env x) as [resp|e]; [|done].
    destruct (content resp) as [data|e]; [|done].
    destruct (py_get data "translate" not_found); [|done].
    by destruct (py_get data "definition" not_found). }
  destruct (enrich_word env x t w) as [[t'|e] w']; simpl in Hw; subst w'; [|done].
  apply IH.
Qed.

Lemma send_cards_frame env l : ∀ w,
  ledger (send_cards env l w).2 = ledger w ∧
  files (send_cards env l w).2 = files w.
Proof.
  induction l as [|c l IH]; intros w; simpl; [done|].
  unfold mbind, handler_bind.
  destruct (reply_frame env (WordCard c) w) as [Hl Hf].
  destruct (reply env (WordCard c) w) as [[[]|e] w']; simpl in *; [|done].
  destruct (IH w') as [Hl' Hf']. by rewrite Hl', Hf'.
Qed.

Lemma completed_body_adds_two_entries `{U : unicode} env d w w1 :
  recognize_and_bill env d w = (Ok (), w1) →
  ∃ e1 e2 : entry,
    entries (ledger w1) = entries (ledger w) ++ [e1; e2] ∧
    model e1 = "whisper-1" ∧ model e2 = model_name.
Proof.
  unfold recognize_and_bill, mbind, handler_bind, lift.
  destruct (transcription env) as [text|e]; [|done].
  unfold reply at 1. destruct (reply_text env _); [done|].
  destruct (whisper_cost d) as [c1|e]; [|done]. cbn.
  unfold reply at 1. destruct (reply_text env _); [done|].
  pose proof (enrich_words_world env (words_of text) tally0) as Hw.
  match goal with |- context [enrich_words ?e ?ws ?t0 ?w0] =>
    specialize (Hw w0); destruct (enrich_words e ws t0 w0) as [[t|e'] w2] end;
    [|done].
  simpl in Hw. subst w2.
  match goal with |- context [send_cards ?e ?l ?w0] =>
    destruct (send_cards_frame e l w0) as [Hl Hf];
    destruct (send_cards e l w0) as [[[]|e'] w3] end; [|done].
  simpl in Hl.
  destruct (gpt_cost _ _) as [c2|e]; [|done]. cbn.
  unfold reply. destruct (reply_text env _); [done|].
  intros [= <-]. cbn. rewrite Hl. cbn.
  eexists _, _. rewrite <- app_assoc. split; [reflexivity|]. done.
Qed.

(** A run whose [try] block is left without an exception has appended
    exactly two entries, one for Whisper and one for the model, whatever the
    number of words. *)
Theorem completed_run_adds_two_entries `{U : unicode}
    (env : update_env) (w : world) (d : Z) (path : string) :
  voice env = Some d → get_file env = None →
  named_temporary_file env = Ok path → download_to_drive env = None →
  (recognize_and_bill env d
     {| ledger := ledger w; files := {[path]} ∪ files w;
        outbox := outbox w |}).1 = Ok () →
  ∃ e1 e2 : entry,
    entries (ledger (process_update env w)) = entries (ledger w) ++ [e1; e2] ∧
    model e1 = "whisper-1" ∧ model e2 = "gpt-4.1-mini".
Proof.
  intros Hv Hg Ht Hd Hbody.
  destruct (recognize_and_bill env d _) as [r w1] eqn:Hrun.
  simpl in Hbody. subst r.
  destruct (process_update_of_body env d path w w1) as [-> _]; try done.
  apply completed_body_adds_two_entries in Hrun. exact Hrun.
Qed.

Lemma completed_run_witness :
  ∃ e1 e2 : entry,
    entries (ledger (process_update garbled_answer world0)) =
      entries (ledger world0) ++ [e1; e2] ∧
    model e1 = "whisper-1" ∧ model e2 = "gpt-4.1-mini".
Proof.
  apply (completed_run_adds_two_entries garbled_answer world0 30
           "/tmp/tmpk3v9.ogg");
    [reflexivity | reflexivity | reflexivity | reflexivity | by vm_compute].
Defined.

(** An answer that [json.loads] rejects: the word is passed over, nothing
    is counted, sent or billed for it, and the loop goes on with the words
    that follow. *)
Theorem unparseable_answer_is_skipped
    (env : update_env) (x : string) (words : list string) (resp : response)
    (e : exn) (t : tally) (w : world) :
  chat_completion env x = Ok resp →
  content resp = Raise e →
  enrich_word env x t w = (Ok t, w) ∧
  enrich_words env (x :: words) t w = enrich_words env words t w.
Proof.
  intros Hcall Hcontent.
  pose proof (enrich_word_dropped env x resp e t w Hcall Hcontent) as Hx.
  split; [exact Hx|]. simpl. by rewrite (bind_ok _ _ w t w Hx).
Qed.

Lemma unparseable_answer_witness :
  enrich_word garbled_answer "enjoyed" tally0 world0 = (Ok tally0, world0) ∧
  enrich_words garbled_answer ["enjoyed"; "watching"] tally0 world0 =
  enrich_words garbled_answer ["watching"] tally0 world0.
Proof.
  exact (unparseable_answer_is_skipped garbled_answer "enjoyed" ["watching"]
           _ _ tally0 world0 eq_refl eq_refl).
Defined.

(** A download that raises: the exception leaves the handler, the user gets
    the generic message when the platform delivers it, the ledger is as
    before, and the temporary file exists after the run. *)
Theorem failed_download_keeps_the_file `{U : unicode}
    (env : update_env) (w : world) (d : Z) (path : string) (e : exn) :
  voice env = Some d → get_file env = None →
  named_temporary_file env = Ok path → download_to_drive env = Some e →
  path ∈ files (process_update env w) ∧
  ledger (process_update env w) = ledger w ∧
  (reply_text env GenericError = None →
   outbox (process_update env w) = outbox w ++ [GenericError]).
Proof.
  intros Hv Hg Ht Hd. unfold process_update, handle_voice.
  rewrite Hv. unfold check, create_temp, mbind, handler_bind.
  rewrite Hg, Ht, Hd. cbn. unfold error_handler. repeat split.
  - match goal with |- context [reply ?e ?m ?w0] =>
      destruct (reply_frame e m w0) as [_ ->] end.
    apply elem_of_union_l, elem_of_singleton. done.
  - match goal with |- context [reply ?e ?m ?w0] =>
      destruct (reply_frame e m w0) as [-> _] end.
    done.
  - intros Hr. by rewrite (reply_delivered _ _ _ Hr).
Qed.

Lemma failed_download_witness :
  "/tmp/tmpk3v9.ogg" ∈ files (process_update download_times_out world0) ∧
  ledger (process_update download_times_out world0) = ledger world0 ∧
  (reply_text download_times_out GenericError = None →
   outbox (process_update download_times_out world0) =
   outbox world0 ++ [GenericError]).
Proof.
  exact (failed_download_keeps_the_file download_times_out world0 30
           "/tmp/tmpk3v9.ogg" (ExternalError "Timed out")
           eq_refl eq_refl eq_refl eq_refl).
Defined.

(** A file fetch that raises: no temporary file is created, the ledger is
    as before, and the user gets the generic message when the platform
    delivers it. *)
Theorem failed_fetch_creates_no_file `{U : unicode}
    (env : update_env) (w : world) (d : Z) (e : exn) :
  voice env = Some d → get_file env = Some e →
  files (process_update env w) = files w ∧
  ledger (process_update env w) = ledger w ∧
  (reply_text env GenericError = None →
   outbox (process_update env w) = outbox w ++ [GenericError]).
Proof.
  intros Hv Hg. unfold process_update, handle_voice.
  rewrite Hv. unfold check, mbind, handler_bind. rewrite Hg. cbn.
  unfold error_handler. repeat split; try apply reply_frame.
  intros Hr. by rewrite (reply_delivered _ _ _ Hr).
Qed.

Lemma failed_fetch_witness :
  files (process_update fetch_fails world0) = files world0 ∧
  ledger (process_update fetch_fails world0) = ledger world0 ∧
  (reply_text fetch_fails GenericError = None →
   outbox (process_update fetch_fails world0) =
   outbox world0 ++ [GenericError]).
Proof.
  exact (failed_fetch_creates_no_file fetch_fails world0 30
           (ExternalError "Timed out") eq_refl eq_refl).
Defined.

Lemma reachable_ledger_witness :
  totals_match
    (ledger (dispatch (dispatch world0 (VoiceMessage sunsets_update))
               (BalanceCommand sunsets_update))) ∧
  Forall (λ e, sum_uzs e = (raw_sum e * USD_TO_UZS)%float)
    (entries
       (ledger (dispatch (dispatch world0 (VoiceMessage sunsets_update))
                  (BalanceCommand sunsets_update)))).
Proof.
  apply reachable_ledger_is_consistent.
  apply reachable_step, reachable_step, reachable_start.
Defined.

(** [/balance] reads the ledger and changes nothing in it; on the empty
    ledger it answers with the message for an empty balance. *)
Theorem balance_command_reads_only (env : update_env) (w : world) :
  ledger (balance_command env w).2 = ledger w ∧
  files (balance_command env w).2 = files w ∧
  (entries (ledger w) = [] → reply_text env BalanceEmpty = None →
   outbox (balance_command env w).2 = outbox w ++ [BalanceEmpty]).
Proof.
  unfold balance_command. split; [|split].
  - destruct (entries (ledger w)); apply reply_frame.
  - destruct (entries (ledger w)); apply reply_frame.
  - intros -> Hr. by rewrite (reply_delivered _ _ _ Hr).
Qed.

(** ** The extracted words *)

Section extractor_output.
Context {char : Type} `{Countable char}.
Variable is_word : char → bool.

Lemma first_occurrences_elem (l : list (list char)) (y : list char) :
  y ∈ first_occurrences l ↔ y ∈ l.
Proof.
  induction l as [|x l IH]; simpl; [done|].
  rewrite !elem_of_cons, list_elem_of_filter, IH.
  destruct (decide (y = x)); tauto.
Qed.

Lemma first_occurrences_NoDup (l : list (list char)) :
  NoDup (first_occurrences l).
Proof.
  induction l as [|x l IH]; simpl; constructor.
  - rewrite list_elem_of_filter. by intros [Hne _].
  - by apply NoDup_filter.
Qed.

Lemma first_occurrences_sublist (l : list (list char)) :
  first_occurrences l `sublist_of` l.
Proof.
  induction l as [|x l IH]; simpl; [done|].
  apply sublist_skip. etrans; [apply sublist_filter|done].
Qed.

Lemma word_runs_tokens s toks :
  word_runs is_word s toks →
  Forall (λ t, t ≠ [] ∧ Forall (λ c, is_word c = true) t) toks.
Proof. induction 1; constructor; auto. Qed.


Lemma word_runs_chars s toks :
  word_runs is_word s toks → Forall (λ t, ∀ c, c ∈ t → c ∈ s) toks.
Proof.
  induction 1 as [|sep tok rest toks _ _ _ _ _ IH]; constructor.
  - intros c Hc. rewrite !elem_of_app. tauto.
  - eapply Forall_impl; [exact IH|]. intros t Ht c Hc.
    rewrite !elem_of_app. auto.
Qed.

Variable lower : list char → list char.

(** The words of lines 109-114: no word twice, in the order of the matches,
    exactly the matches longer than 3 characters, each made of word
    characters only. *)
Theorem extracted_words_are_distinct_long_tokens (text : list char) :
  let words := extract_words is_word lower text in
  let toks := findall is_word (lower text) in
  NoDup words ∧
  words `sublist_of` toks ∧
  (∀ w, w ∈ words ↔ w ∈ toks ∧ (3 < length w)%nat) ∧
  Forall (Forall (λ c, is_word c = true)) words.
Proof.
  cbn zeta. rewrite extract_words_vocabulary. unfold vocabulary.
  split; [|split; [|split]].
  - apply NoDup_filter, first_occurrences_NoDup.
  - etrans; [apply sublist_filter|apply first_occurrences_sublist].
  - intros w. rewrite list_elem_of_filter, first_occurrences_elem. tauto.
  - apply Forall_forall. intros w Hw.
    apply list_elem_of_filter in Hw as [_ Hw].
    rewrite first_occurrences_elem in Hw.
    pose proof (word_runs_tokens _ _ (findall_runs is_word (lower text))) as Ht.
    rewrite Forall_forall in Ht. by destruct (Ht w Hw).
Qed.

End extractor_output.

(** *** The 7-bit instance *)

Lemma lower_ascii_word c :
  is_word_ascii (lower_ascii c) = true →
  is_lower_word_ascii (lower_ascii c) = true.
Proof. destruct c as [[] [] [] [] [] [] [] []]; by vm_compute. Qed.

Lemma string_of_list_ascii_inj : Inj (=) (=) String.string_of_list_ascii.
Proof.
  intros l1 l2 E.
  by rewrite <- (String.list_ascii_of_string_of_list_ascii l1), E,
    String.list_ascii_of_string_of_list_ascii.
Qed.

Lemma string_of_list_ascii_length l :
  String.length (String.string_of_list_ascii l) = length l.
Proof. induction l; simpl; congruence. Qed.

(** The words handed to the model: distinct, longer than 3 characters, and
    written with lower-case letters, digits and underscores only. *)
Theorem extracted_words_are_lower_case (text : string) :
  NoDup (extract_text text) ∧
  Forall (λ w, (3 < String.length w)%nat ∧
               Forall (λ c, is_lower_word_ascii c = true)
                 (String.list_ascii_of_string w))
    (extract_text text).
Proof.
  unfold extract_text.
  set (s := String.list_ascii_of_string text).
  destruct (extracted_words_are_distinct_long_tokens is_word_ascii
              (fmap lower_ascii) s) as (Hnd & _ & Hin & Hword).
  split.
  - apply (NoDup_fmap_2 _ (Inj0 := string_of_list_ascii_inj)), Hnd.
  - apply Forall_fmap, Forall_forall. intros w Hw. cbn.
    rewrite string_of_list_ascii_length,
      String.list_ascii_of_string_of_list_ascii.
    pose proof Hw as Hw'. apply Hin in Hw' as [Htok Hlen]. split; [done|].
    rewrite Forall_forall in Hword. specialize (Hword w Hw).
    pose proof (findall_runs is_word_ascii (lower_ascii <$> s)) as Hchars.
    apply word_runs_chars in Hchars.
    rewrite Forall_forall in Hchars. specialize (Hchars w Htok).
    apply Forall_forall. intros c Hc.
    rewrite Forall_forall in Hword. specialize (Hword c Hc).
    apply Hchars, list_elem_of_fmap in Hc as (c0 & -> & _).
    by apply lower_ascii_word.
Qed.

(** ** The temporary file on every exit *)

Lemma keeps_files_ret {A} (a : A) : keeps_files (mret a).
Proof. done. Qed.
Lemma keeps_files_lift {A} (r : result A) : keeps_files (lift r).
Proof. done. Qed.
Lemma keeps_files_reply env m : keeps_files (reply env m).
Proof. intros w. apply reply_frame. Qed.
Lemma keeps_files_bill m c t n : keeps_files (bill m c t n).
Proof. done. Qed.

Lemma keeps_files_bind {A B} (m : handler A) (f : A → handler B) :
  keeps_files m → (∀ a, keeps_files (f a)) → keeps_files (m ≫= f).
Proof.
  intros Hm Hf w. unfold mbind, handler_bind.
  specialize (Hm w). destruct (m w) as [[a|e] w1]; [|done].
  simpl in Hm. by rewrite Hf.
Qed.

Lemma keeps_files_try_except {A} (body : handler A) (h : exn → handler A) :
  keeps_files body → (∀ e, keeps_files (h e)) → keeps_files (try_except body h).
Proof.
  intros Hb Hh w. unfold try_except.
  specialize (Hb w). destruct (body w) as [[a|e] w1]; [done|].
  simpl in Hb. by rewrite Hh.
Qed.

Lemma keeps_files_enrich_words env words t :
  keeps_files (enrich_words env words t).
Proof. intros w. by rewrite enrich_words_world. Qed.

Lemma keeps_files_send_cards env l : keeps_files (send_cards env l).
Proof. intros w. apply send_cards_frame. Qed.

Lemma keeps_files_recognize_and_bill `{U : unicode} env d :
  keeps_files (recognize_and_bill env d).
Proof.
  unfold recognize_and_bill.
  repeat first
    [ apply keeps_files_bind; [|intros ?]
    | apply keeps_files_lift | apply keeps_files_reply
    | apply keeps_files_bill | apply keeps_files_enrich_words
    | apply keeps_files_send_cards ].
Qed.

(** The [finally] block on every exit of the [try] statement: once the
    download has returned, the temporary file is gone after the run exactly
    when [os.remove] returns, whatever the block did, and no other file is
    created or deleted. *)
Theorem cleanup_on_every_exit `{U : unicode}
    (env : update_env) (w : world) (d : Z) (path : string) :
  voice env = Some d → get_file env = None →
  named_temporary_file env = Ok path → download_to_drive env = None →
  (os_remove env = None → path ∉ files (process_update env w)) ∧
  (os_remove env ≠ None → path ∈ files (process_update env w)) ∧
  (∀ q, q ≠ path → q ∈ files (process_update env w) ↔ q ∈ files w).
Proof.
  intros Hv Hg Ht Hd.
  assert (files (process_update env w) =
          match os_remove env with
          | None => ({[path]} ∪ files w) ∖ {[path]}
          | Some _ => {[path]} ∪ files w
          end) as ->.
  { unfold process_update.
    rewrite (handle_voice_downloaded env d path w) by done.
    unfold try_finally.
    match goal with |- context [try_except (recognize_and_bill env d) ?h ?w0] =>
      pose proof (keeps_files_try_except (recognize_and_bill env d) h
                    (keeps_files_recognize_and_bill env d)
                    (λ e, keeps_files_reply env _) w0) as Hf;
      destruct (try_except (recognize_and_bill env d) h w0) as [r w1] end.
    simpl in Hf.
    destruct (cleanup_returns env path w1) as (w2 & -> & _ & _ & Hf2).
    assert (files match r with
                  | Ok _ => w2
                  | Raise e0 => (error_handler env e0 w2).2
                  end = files w2) as ->.
    { destruct r as [[]|e0]; [done|]. apply reply_frame. }
    by rewrite Hf2, Hf. }
  destruct (os_remove env) as [e|].
  - split; [done|]. split.
    + intros _. apply elem_of_union_l, elem_of_singleton. done.
    + intros q Hq. rewrite elem_of_union, elem_of_singleton. tauto.
  - split; [|split; [done|]].
    + intros _. rewrite elem_of_difference, elem_of_singleton. tauto.
    + intros q Hq.
      rewrite elem_of_difference, elem_of_union, !elem_of_singleton. tauto.
Qed.

Lemma cleanup_witness :
  (os_remove array_answer = None →
   "/tmp/tmpk3v9.ogg" ∉ files (process_update array_answer world0)) ∧
  (os_remove array_answer ≠ None →
   "/tmp/tmpk3v9.ogg" ∈ files (process_update array_answer world0)) ∧
  (∀ q, q ≠ "/tmp/tmpk3v9.ogg" →
        q ∈ files (process_update array_answer world0) ↔ q ∈ files world0).
Proof.
  exact (cleanup_on_every_exit array_answer world0 30 "/tmp/tmpk3v9.ogg"
           eq_refl eq_refl eq_refl eq_refl).
Defined.

(** ** What an update appends *)

(** The goal after a step of the body has failed or the body has ended:
    the ledger equations collected so far give the entries. *)
Local Ltac settle new :=
  exists new; cbn;
  repeat match goal with
         | H : ledger _ = _ |- _ => rewrite H; clear H; cbn
         end;
  split; [by rewrite <- ?app_assoc, ?app_nil_r | by constructor].

Lemma body_entries `{U : unicode} env d w :
  ∃ new, entries (ledger (recognize_and_bill env d w).2) =
           entries (ledger w) ++ new ∧ run_entries new.
Proof.
  unfold recognize_and_bill, mbind, handler_bind, lift.
  destruct (transcription env) as [text|e]; [|settle (@nil entry)].
  destruct (reply_frame env (RecognizedText text) w) as [Hl0 _].
  destruct (reply env (RecognizedText text) w) as [[[]|e] w0]; simpl in Hl0;
    [|settle (@nil entry)].
  destruct (whisper_cost d) as [c1|e]; [|settle (@nil entry)].
  cbn.
  set (e1 := {| model := "whisper-1"; raw_sum := c1;
                sum_uzs := (c1 * USD_TO_UZS)%float; tokens := 0;
                note := duration_note d |}).
  match goal with |- context [reply env ?m ?w1] =>
    destruct (reply_frame env m w1) as [Hl1 _];
    destruct (reply env m w1) as [[[]|e] w2] end; simpl in Hl1;
    [|settle [e1]].
  pose proof (enrich_words_world env (words_of text) tally0 w2) as Hw.
  destruct (enrich_words env (words_of text) tally0 w2) as [[t|e] w3];
    simpl in Hw; subst w3; [|settle [e1]].
  destruct (send_cards_frame env (word_list t) w2) as [Hl3 _].
  destruct (send_cards env (word_list t) w2) as [[[]|e] w4]; simpl in Hl3;
    [|settle [e1]].
  destruct (gpt_cost _ _) as [c2|e]; [|settle [e1]].
  cbn.
  set (e2 := {| model := model_name; raw_sum := c2;
                sum_uzs := (c2 * USD_TO_UZS)%float;
                tokens := total_tokens_used t; note := "per voice analysis" |}).
  match goal with |- context [reply env ?m ?w5] =>
    destruct (reply_frame env m w5) as [Hl5 _];
    destruct (reply env m w5) as [r w6] end; simpl in Hl5.
  settle [e1; e2].
Qed.

Lemma error_handler_ledger env (r : result ()) (w1 : world) :
  ledger match r with
         | Ok _ => w1
         | Raise e => (error_handler env e w1).2
         end = ledger w1.
Proof. destruct r as [[]|e]; [done|]. apply reply_frame. Qed.

Lemma process_update_entries `{U : unicode} env w :
  ∃ new, entries (ledger (process_update env w)) = entries (ledger w) ++ new ∧
         run_entries new.
Proof.
  pose proof (error_handler_ledger env) as Herr.
  unfold process_update, handle_voice.
  destruct (voice env) as [d|];
    [|exists []; split; [by rewrite app_nil_r|constructor]].
  unfold check, create_temp, mbind, handler_bind.
  destruct (get_file env) as [e|]; cbn;
    [exists []; rewrite (Herr (Raise e)), app_nil_r; split; [done|constructor]|].
  destruct (named_temporary_file env) as [path|e]; cbn;
    [|exists []; rewrite (Herr (Raise e)), app_nil_r; split;
      [done|constructor]].
  destruct (download_to_drive env) as [e|]; cbn;
    [exists []; rewrite (Herr (Raise e)), app_nil_r; split; [done|constructor]|].
  unfold try_finally.
  set (w0 := {| ledger := ledger w; files := {[path]} ∪ files w;
                outbox := outbox w |}).
  destruct (body_entries env d w0) as (new & Hnew & Hshape).
  assert (∃ r w1, try_except (recognize_and_bill env d)
            (λ e, reply env (RecognitionError (exn_str e))) w0 = (r, w1) ∧
          ledger w1 = ledger (recognize_and_bill env d w0).2)
    as (r & w1 & -> & Hl1).
  { unfold try_except.
    destruct (recognize_and_bill env d w0) as [[[]|e] wb]; [by eexists _, _|].
    destruct (reply_frame env (RecognitionError (exn_str e)) wb) as [Hl _].
    destruct (reply env (RecognitionError (exn_str e)) wb) as [r w1].
    by exists r, w1. }
  destruct (cleanup_returns env path w1) as (w2 & -> & Hl2 & _ & _).
  exists new. rewrite Herr, Hl2, Hl1. done.
Qed.

Lemma dispatch_entries `{U : unicode} w u :
  ∃ new, entries (ledger (dispatch w u)) = entries (ledger w) ++ new ∧
         run_entries new.
Proof.
  destruct u as [env|env|env]; simpl.
  - apply process_update_entries.
  - exists []. split; [|constructor]. rewrite app_nil_r.
    destruct (balance_command_reads_only env w) as [Hl _].
    destruct (balance_command env w) as [r w1]; simpl in Hl.
    by rewrite (error_handler_ledger env r), Hl.
  - exists []. split; [|constructor]. rewrite app_nil_r. unfold start.
    destruct (reply_frame env Greeting w) as [Hl _].
    destruct (reply env Greeting w) as [r w1]; simpl in Hl.
    by rewrite (error_handler_ledger env r), Hl.
Qed.

Lemma paired_app l1 l2 : paired l1 → paired l2 → paired (l1 ++ l2).
Proof.
  induction 1; intros ?; simpl; [done|by apply paired_whisper; auto|].
  by apply paired_both; auto.
Qed.

Lemma run_entries_paired new : run_entries new → paired new.
Proof. destruct 1; repeat constructor; done. Qed.

(** One update appends nothing, the entry for Whisper (with no tokens), or
    that entry followed by the entry for the model; a command appends
    nothing. *)
Theorem update_appends_at_most_two_entries `{U : unicode} (w : world) (u : update) :
  ∃ new : list entry,
    entries (ledger (dispatch w u)) = entries (ledger w) ++ new ∧
    run_entries new ∧
    match u with
    | VoiceMessage _ => True
    | BalanceCommand _ | StartCommand _ => new = []
    end.
Proof.
  destruct (dispatch_entries w u) as (new & Hnew & Hshape).
  destruct u as [env|env|env]; [by exists new|..].
  - exists []. split; [|split; [constructor|done]]. rewrite app_nil_r.
    simpl.
    destruct (balance_command_reads_only env w) as [Hl _].
    destruct (balance_command env w) as [r w1]; simpl in Hl.
    by rewrite (error_handler_ledger env r), Hl.
  - exists []. split; [|split; [constructor|done]]. rewrite app_nil_r.
    simpl. unfold start.
    destruct (reply_frame env Greeting w) as [Hl _].
    destruct (reply env Greeting w) as [r w1]; simpl in Hl.
    by rewrite (error_handler_ledger env r), Hl.
Qed.

(** Between two updates every entry of the ledger is one for Whisper with
    no tokens, or one for the model that directly follows one for
    Whisper. *)
Theorem reachable_ledger_is_paired `{U : unicode} (w : world) :
  reachable w → paired (entries (ledger w)).
Proof.
  induction 1 as [|w u _ IH]; [constructor|].
  destruct (dispatch_entries w u) as (new & -> & Hnew).
  by apply paired_app, run_entries_paired.
Qed.

Lemma reachable_paired_witness :
  paired (entries (ledger (dispatch (dispatch world0 (VoiceMessage array_answer))
                             (VoiceMessage sunsets_update)))).
Proof.
  apply reachable_ledger_is_paired.
  apply reachable_step, reachable_step, reachable_start.
Defined.

(** ** When the enrichment loop completes *)

Lemma add_usage_word_list u t : word_list (add_usage u t) = word_list t.
Proof.
  destruct u as [[[p|] [c|] [n|]]|]; done.
Qed.

Lemma enrich_word_outcome env x t w :
  match (enrich_word env x t w).1 with
  | Ok t' => passes env x = true ∧
             word_list t' = word_list t ++ option_list (card_for env x)
  | Raise _ => passes env x = false
  end.
Proof.
  unfold enrich_word, passes, card_for, mbind, handler_bind, lift.
  destruct (chat_completion env x) as [resp|e]; [|done].
  destruct (content resp) as [data|e]; cbn; [|by rewrite app_nil_r].
  destruct data; cbn; try done.
  by rewrite add_usage_word_list.
Qed.

(** The loop of lines 123-152 returns exactly when every call returns and no
    answer is JSON of another kind than an object; the list it builds then
    holds, in the order of the words, the card of each word whose answer
    parsed. It raises when some word does not get past. *)
Theorem enrichment_loop_outcome
    (env : update_env) (words : list string) (t : tally) (w : world) :
  match (enrich_words env words t w).1 with
  | Ok t' => Forall (λ x, passes env x = true) words ∧
             word_list t' = word_list t ++ omap (card_for env) words
  | Raise _ => Exists (λ x, passes env x = false) words
  end.
Proof.
  revert t. induction words as [|x words IH]; intros t; simpl.
  - split; [constructor|by rewrite app_nil_r].
  - unfold mbind, handler_bind.
    pose proof (enrich_word_outcome env x t w) as Hx.
    pose proof (enrich_words_world env [x] t w) as Hw. simpl in Hw.
    unfold mbind, handler_bind in Hw.
    destruct (enrich_word env x t w) as [[t1|e] w1]; simpl in *;
      [|by constructor].
    subst w1. destruct Hx as [Hp Hl]. specialize (IH t1).
    destruct (enrich_words env words t1 w) as [[t2|e] w2]; simpl in *.
    + destruct IH as [Hall Hl2]. split; [by constructor|].
      rewrite Hl2, Hl, <- app_assoc. by destruct (card_for env x).
    + by apply Exists_cons_tl.
Qed.

(** ** Runs with answers that parse and answers that do not *)

Lemma enrich_words_answered env (words : list string)
    (answers : list (option completion)) :
  Forall2 (answered env) words answers →
  ∀ t w0,
  enrich_words env words t w0 =
  (Ok {| word_list := word_list t ++ omap (card_for env) words;
         total_prompt_tokens :=
           foldl Z.add (total_prompt_tokens t)
             (used_prompt <$> omap id answers);
         total_completion_tokens :=
           foldl Z.add (total_completion_tokens t)
             (used_completion <$> omap id answers);
         total_tokens_used :=
           foldl Z.add (total_tokens_used t)
             (used_total <$> omap id answers) |}, w0).
Proof.
  induction 1 as [|x a words answers Hx _ IH]; intros t w0; simpl.
  - rewrite app_nil_r. by destruct t.
  - destruct a as [c|]; simpl in Hx.
    + erewrite bind_ok; last first.
      { unfold enrich_word. erewrite bind_ok; last (unfold lift; by rewrite Hx).
        cbn. reflexivity. }
      rewrite IH. cbn. unfold card_for at 2. rewrite Hx. cbn.
      by rewrite <- app_assoc.
    + destruct Hx as (resp & e & Hcall & Hcontent).
      rewrite (bind_ok _ _ w0 t w0) by by eapply enrich_word_dropped.
      rewrite IH. unfold card_for at 2. by rewrite Hcall, Hcontent.
Qed.

(** Answers that do not parse are passed over together with their usage:
    the entry for the model is computed from the answers that parsed. *)
Theorem parsed_answers_alone_are_billed `{U : unicode}
    (env : update_env) (w : world) (d : Z) (path text : string)
    (answers : list (option completion)) (dur p c : float) :
  voice env = Some d →
  get_file env = None →
  named_temporary_file env = Ok path →
  download_to_drive env = None →
  transcription env = Ok text →
  Forall2 (answered env) (words_of text) answers →
  (∀ m, reply_text env m = None) →
  int_to_float d = Ok dur →
  int_to_float (int_sum (used_prompt <$> omap id answers)) = Ok p →
  int_to_float (int_sum (used_completion <$> omap id answers)) = Ok c →
  entries (ledger (process_update env w)) =
    entries (ledger w) ++
    [ {| model := "whisper-1";
         raw_sum := (dur / 60.0 * 0.006)%float;
         sum_uzs := (dur / 60.0 * 0.006 * USD_TO_UZS)%float;
         tokens := 0;
         note := duration_note d |};
      {| model := "gpt-4.1-mini";
         raw_sum := (p * (0.40 / 1000000.0) + c * (1.60 / 1000000.0))%float;
         sum_uzs := ((p * (0.40 / 1000000.0) + c * (1.60 / 1000000.0))
                     * USD_TO_UZS)%float;
         tokens := int_sum (used_total <$> omap id answers);
         note := "per voice analysis" |} ] ∧
  outbox (process_update env w) =
    outbox w ++
    [ RecognizedText text;
      WhisperBilled (dur / 60.0 * 0.006)%float
                    (dur / 60.0 * 0.006 * USD_TO_UZS)%float ] ++
    (WordCard <$> omap (card_for env) (words_of text)) ++
    [ GptBilled (int_sum (used_total <$> omap id answers))
        (p * (0.40 / 1000000.0) + c * (1.60 / 1000000.0))%float
        ((p * (0.40 / 1000000.0) + c * (1.60 / 1000000.0))
         * USD_TO_UZS)%float ].
Proof.
  intros Hv Hg Ht Hd Htr Hans Hr Hdur Hp Hc.
  edestruct (process_update_of_body env d path w) as [-> ->]; try done.
  { eapply recognize_and_bill_delivered; try done.
    - intros w1. apply (enrich_words_answered _ _ _ Hans).
    - cbn [total_prompt_tokens total_completion_tokens tally0].
      unfold gpt_cost. unfold int_sum in Hp, Hc. rewrite Hp, Hc. reflexivity. }
  cbn. rewrite <- app_assoc. done.
Qed.

Lemma parsed_answers_witness :
  entries (ledger (process_update garbled_answer world0)) =
    entries (ledger world0) ++
    [ {| model := "whisper-1"; raw_sum := (30 / 60.0 * 0.006)%float;
         sum_uzs := (30 / 60.0 * 0.006 * USD_TO_UZS)%float; tokens := 0;
         note := duration_note 30 |};
      {| model := "gpt-4.1-mini";
         raw_sum := (320 * (0.40 / 1000000.0) + 80 * (1.60 / 1000000.0))%float;
         sum_uzs := ((320 * (0.40 / 1000000.0) + 80 * (1.60 / 1000000.0))
                     * USD_TO_UZS)%float;
         tokens := int_sum [100; 100; 100; 100];
         note := "per voice analysis" |} ] ∧
  outbox (process_update garbled_answer world0) =
    outbox world0 ++
    [ RecognizedText "I really enjoyed watching sunsets yesterday";
      WhisperBilled (30 / 60.0 * 0.006)%float
                    (30 / 60.0 * 0.006 * USD_TO_UZS)%float ] ++
    (WordCard <$> omap (card_for garbled_answer)
       (words_of "I really enjoyed watching sunsets yesterday")) ++
    [ GptBilled (int_sum [100; 100; 100; 100])
        (320 * (0.40 / 1000000.0) + 80 * (1.60 / 1000000.0))%float
        ((320 * (0.40 / 1000000.0) + 80 * (1.60 / 1000000.0))
         * USD_TO_UZS)%float ].
Proof.
  apply (parsed_answers_alone_are_billed garbled_answer world0 30
           "/tmp/tmpk3v9.ogg" "I really enjoyed watching sunsets yesterday"
           [ Some (mk_completion (both_fields "uz really" "izoh") 80 20 100);
             None;
             Some (mk_completion (both_fields "uz watching" "izoh") 80 20 100);
             Some (mk_completion (both_fields "uz sunsets" "izoh") 80 20 100);
             Some (mk_completion (both_fields "uz yesterday" "izoh") 80 20 100) ]
           30%float 320%float 80%float);
    try reflexivity.
  repeat constructor. by eexists _, _.
Defined.

(** ** What the user is told *)

Lemma reply_returned env m w w' :
  reply env m w = (Ok (), w') →
  w' = {| ledger := ledger w; files := files w; outbox := outbox w ++ [m] |}.
Proof. unfold reply. destruct (reply_text env m); [done|]. by intros [= <-]. Qed.

Lemma send_cards_returned env l : ∀ w w',
  send_cards env l w = (Ok (), w') →
  ledger w' = ledger w ∧ outbox w' = outbox w ++ (WordCard <$> l).
Proof.
  induction l as [|c l IH]; intros w w'; simpl.
  - intros [= <-]. by rewrite app_nil_r.
  - unfold mbind, handler_bind.
    destruct (reply env (WordCard c) w) as [[[]|e] w1] eqn:Hc; [|done].
    apply reply_returned in Hc as ->. intros Hl.
    apply IH in Hl as [-> ->]. cbn. by rewrite <- app_assoc.
Qed.

Lemma completed_body_report `{U : unicode} env d w w1 :
  recognize_and_bill env d w = (Ok (), w1) →
  ∃ (text : string) (e1 e2 : entry),
    transcription env = Ok text ∧
    entries (ledger w1) = entries (ledger w) ++ [e1; e2] ∧
    outbox w1 =
      outbox w ++
      [ RecognizedText text; WhisperBilled (raw_sum e1) (sum_uzs e1) ] ++
      (WordCard <$> omap (card_for env) (words_of text)) ++
      [ GptBilled (tokens e2) (raw_sum e2) (sum_uzs e2) ].
Proof.
  unfold recognize_and_bill, mbind, handler_bind, lift.
  destruct (transcription env) as [text|e]; [|done].
  destruct (reply env (RecognizedText text) w) as [[[]|e] w0] eqn:H0; [|done].
  apply reply_returned in H0 as ->.
  destruct (whisper_cost d) as [c1|e]; [|done]. cbn.
  match goal with |- context [reply env ?m ?wa] =>
    destruct (reply env m wa) as [[[]|e] w2] eqn:H2 end; [|done].
  apply reply_returned in H2 as ->. cbn.
  match goal with |- context [enrich_words env ?ws ?t0 ?wa] =>
    pose proof (enrichment_loop_outcome env ws t0 wa) as Hloop;
    pose proof (enrich_words_world env ws t0 wa) as Hw;
    destruct (enrich_words env ws t0 wa) as [[t|e] w3] end; [|done].
  simpl in Hw, Hloop. subst w3. destruct Hloop as [_ Hcards].
  match goal with |- context [send_cards env ?l ?wa] =>
    destruct (send_cards env l wa) as [[[]|e] w4] eqn:H4 end; [|done].
  apply send_cards_returned in H4 as [Hl4 Ho4]. cbn in Hl4, Ho4.
  destruct (gpt_cost _ _) as [c2|e]; [|done]. cbn.
  match goal with |- context [reply env ?m ?wa] =>
    destruct (reply env m wa) as [[[]|e] w6] eqn:H6 end; [|done].
  apply reply_returned in H6 as ->. intros [= <-]. cbn.
  eexists text, _, _. split; [done|]. rewrite Hl4, Ho4, Hcards. cbn.
  split; [by rewrite <- app_assoc|]. by rewrite <- !app_assoc.
Qed.

(** A run whose [try] block completes: what the user has received. *)
Theorem completed_run_reports_what_it_billed `{U : unicode}
    (env : update_env) (w : world) (d : Z) (path : string) :
  voice env = Some d → get_file env = None →
  named_temporary_file env = Ok path → download_to_drive env = None →
  (recognize_and_bill env d
     {| ledger := ledger w; files := {[path]} ∪ files w;
        outbox := outbox w |}).1 = Ok () →
  ∃ (text : string) (e1 e2 : entry),
    transcription env = Ok text ∧
    entries (ledger (process_update env w)) = entries (ledger w) ++ [e1; e2] ∧
    outbox (process_update env w) =
      outbox w ++
      [ RecognizedText text; WhisperBilled (raw_sum e1) (sum_uzs e1) ] ++
      (WordCard <$> omap (card_for env) (words_of text)) ++
      [ GptBilled (tokens e2) (raw_sum e2) (sum_uzs e2) ].
Proof.
  intros Hv Hg Ht Hd Hbody.
  destruct (recognize_and_bill env d _) as [r w1] eqn:Hrun.
  simpl in Hbody. subst r.
  destruct (process_update_of_body env d path w w1) as [-> ->]; try done.
  apply completed_body_report in Hrun. exact Hrun.
Qed.

Lemma completed_report_witness :
  ∃ (text : string) (e1 e2 : entry),
    transcription no_translation = Ok text ∧
    entries (ledger (process_update no_translation world0)) =
      entries (ledger world0) ++ [e1; e2] ∧
    outbox (process_update no_translation world0) =
      outbox world0 ++
      [ RecognizedText text; WhisperBilled (raw_sum e1) (sum_uzs e1) ] ++
      (WordCard <$> omap (card_for no_translation) (words_of text)) ++
      [ GptBilled (tokens e2) (raw_sum e2) (sum_uzs e2) ].
Proof.
  apply (completed_run_reports_what_it_billed no_translation world0 30
           "/tmp/tmpk3v9.ogg");
    [reflexivity | reflexivity | reflexivity | reflexivity | by vm_compute].
Defined.

Lemma reply_refused env m w e :
  reply_text env m = Some e → reply env m w = (Raise e, w).
Proof. intros E. unfold reply. by rewrite E. Qed.

Lemma try_except_unfold {A} (body : handler A) (h : exn → handler A) w :
  try_except body h w =
  match body w with
  | (Ok a, w') => (Ok a, w')
  | (Raise e, w') => h e w'
  end.
Proof. reflexivity. Qed.

(** A run past the download, however its [try] block ends: the ledger is
    the one the block left, and after the block's messages the user is sent
    nothing when it completed, and one error message when it raised. *)
Theorem failure_is_reported_once `{U : unicode}
    (env : update_env) (w : world) (d : Z) (path : string) :
  voice env = Some d → get_file env = None →
  named_temporary_file env = Ok path → download_to_drive env = None →
  let body :=
    recognize_and_bill env d
      {| ledger := ledger w; files := {[path]} ∪ files w;
         outbox := outbox w |} in
  ledger (process_update env w) = ledger body.2 ∧
  outbox (process_update env w) =
    outbox body.2 ++
    match body.1 with
    | Ok _ => []
    | Raise e =>
        match reply_text env (RecognitionError (exn_str e)) with
        | None => [RecognitionError (exn_str e)]
        | Some _ =>
            match reply_text env GenericError with
            | None => [GenericError]
            | Some _ => []
            end
        end
    end.
Proof.
  intros Hv Hg Ht Hd. cbn zeta. unfold process_update.
  rewrite (handle_voice_downloaded env d path w) by done.
  unfold try_finally. rewrite (try_except_unfold (recognize_and_bill env d)).
  destruct (recognize_and_bill env d _) as [[[]|e] wb]; cbn [fst snd].
  - destruct (cleanup_returns env path wb) as (w2 & -> & Hl & Ho & _).
    cbn. by rewrite Hl, Ho, app_nil_r.
  - destruct (reply_text env (RecognitionError (exn_str e))) as [e'|] eqn:Hrep.
    + rewrite (reply_refused _ _ _ _ Hrep).
      destruct (cleanup_returns env path wb) as (w2 & -> & Hl & Ho & _).
      cbn. unfold error_handler.
      destruct (reply_text env GenericError) as [e''|] eqn:Hgen.
      * rewrite (reply_refused _ _ _ _ Hgen). cbn.
        by rewrite Hl, Ho, app_nil_r.
      * rewrite (reply_delivered _ _ _ Hgen). cbn. by rewrite Hl, Ho.
    + rewrite (reply_delivered _ _ _ Hrep).
      match goal with |- context [try_except (remove env path) ?h ?wa] =>
        destruct (cleanup_returns env path wa) as (w2 & -> & Hl & Ho & _) end.
      cbn. by rewrite Hl, Ho.
Qed.

Lemma failure_report_witness :
  ledger (process_update whisper_down world0) = ledger world0 ∧
  outbox (process_update whisper_down world0) =
    [RecognitionError "Connection error."].
Proof.
  exact (failure_is_reported_once whisper_down world0 30 "/tmp/tmpk3v9.ogg"
           eq_refl eq_refl eq_refl eq_refl).
Defined.

(** [/balance] in a state the process can be in: the report is the empty
    notice for the empty ledger, and otherwise lists every entry with
    totals that are the sums over the entries listed. *)
Theorem balance_reports_the_ledger `{U : unicode} (env : update_env) (w : world) :
  reachable w →
  reply_text env BalanceEmpty = None →
  (∀ es r u t, reply_text env (BalanceSummary es r u t) = None) →
  ledger (dispatch w (BalanceCommand env)) = ledger w ∧
  outbox (dispatch w (BalanceCommand env)) =
    outbox w ++
    [ match entries (ledger w) with
      | [] => BalanceEmpty
      | _ :: _ =>
          BalanceSummary (entries (ledger w))
            (float_sum (raw_sum <$> entries (ledger w)))
            (float_sum (sum_uzs <$> entries (ledger w)))
            (int_sum (tokens <$> entries (ledger w)))
      end ].
Proof.
  intros Hreach He Hs.
  destruct (reachable_ledger_is_consistent w Hreach) as [(Hr & Hu & Ht) _].
  simpl. unfold balance_command.
  destruct (entries (ledger w)) as [|e0 es] eqn:Hes.
  - by rewrite (reply_delivered _ _ _ He).
  - rewrite (reply_delivered _ _ _ (Hs _ _ _ _)). cbn.
    by rewrite Hr, Hu, Ht.
Qed.

Lemma balance_report_witness :
  ledger (dispatch (dispatch world0 (VoiceMessage sunsets_update))
            (BalanceCommand sunsets_update)) =
    ledger (dispatch world0 (VoiceMessage sunsets_update)) ∧
  outbox (dispatch (dispatch world0 (VoiceMessage sunsets_update))
            (BalanceCommand sunsets_update)) =
    outbox (dispatch world0 (VoiceMessage sunsets_update)) ++
    [ match entries (ledger (dispatch world0 (VoiceMessage sunsets_update))) with
      | [] => BalanceEmpty
      | _ :: _ =>
          BalanceSummary
            (entries (ledger (dispatch world0 (VoiceMessage sunsets_update))))
            (float_sum (raw_sum <$>
               entries (ledger (dispatch world0 (VoiceMessage sunsets_update)))))
            (float_sum (sum_uzs <$>
               entries (ledger (dispatch world0 (VoiceMessage sunsets_update)))))
            (int_sum (tokens <$>
               entries (ledger (dispatch world0 (VoiceMessage sunsets_update)))))
      end ].
Proof.
  apply (balance_reports_the_ledger sunsets_update
           (dispatch world0 (VoiceMessage sunsets_update))).
  - apply reachable_step, reachable_start.
  - reflexivity.
  - reflexivity.
Defined.
